(** * Pyramid puzzle validator: a shallow embedding of [game_validator.py]

    The development follows the Python module top down: a small model of
    the [str] operations the validator relies on, then [GameState],
    [GameValidator] (tile parsing, move classification, cost, path parsing
    and the path interpreter) and [validate_puzzle_solution].

    Conventions.
    - A Python [str] is a [string]; a character is the code point below 256
      carried by an [ascii].  In that range the only characters matched by
      [\d] are "0".."9".  Texts with characters from U+0100 on (among them
      the other decimal digits of Unicode, which [\d] and [int] also read)
      are outside the model, and no statement below speaks of them.
    - A Python [int] is a [Z]; [int] on a text refuses more than
      [PyStr.int_max_str_digits] digits, as CPython does by default.
    - An exception is a [Raise] carrying the message of the [ValueError].
    - A [set] of strings is a [gset string]; a [dict] iterated in insertion
      order is an association list. *)

From Stdlib Require Import ZArith Ascii String List Lia.
From stdpp Require Import base decidable option list gmap strings pretty.

Local Open Scope Z_scope.

(** ** Results of fallible code *)

Inductive Result (A : Type) : Type :=
| Ok (a : A)
| Raise (msg : string).
Arguments Ok {A} a.
Arguments Raise {A} msg.

(** ** The string operations used by the validator *)

Module PyStr.

Definition ord (c : ascii) : Z := Z.of_N (N_of_ascii c).

(** The class [\d] of [re] on code points below 256: the decimal digits of
    Unicode in that range are "0".."9" only.  (This is not [str.isdigit],
    which also holds of the superscript digits.) *)
Definition isdigit (c : ascii) : bool :=
  (48 <=? ord c) && (ord c <=? 57).

(** The characters removed by [str.strip()] with no argument. *)
Definition isspace (c : ascii) : bool :=
  let n := ord c in
  ((9 <=? n) && (n <=? 13)) || ((28 <=? n) && (n <=? 32))
  || (n =? 133) || (n =? 160).

Definition newline : ascii := ascii_of_nat 10.

Fixpoint lstrip (s : string) : string :=
  match s with
  | String c s' => if isspace c then lstrip s' else s
  | EmptyString => s
  end.

Definition rstrip (s : string) : string :=
  String.rev (lstrip (String.rev s)).

Definition strip (s : string) : string := rstrip (lstrip s).

(** [c in s] for a one-character [c]. *)
Fixpoint contains (c : ascii) (s : string) : bool :=
  match s with
  | String d s' => if Ascii.eqb c d then true else contains c s'
  | EmptyString => false
  end.

(** [s.split(sep)] for a one-character separator: the pieces between the
    occurrences of [sep], empty pieces included. *)
Fixpoint split (sep : ascii) (s : string) : list string :=
  match s with
  | EmptyString => [EmptyString]
  | String c s' =>
      if Ascii.eqb c sep then EmptyString :: split sep s'
      else match split sep s' with
           | piece :: pieces => String c piece :: pieces
           | [] => [String c EmptyString]
           end
  end.

(** [s.split(sep, 1)] unpacked into two names, for a string that
    contains [sep]: the text before and after its first occurrence. *)
Fixpoint split_once (sep : ascii) (s : string) : string * string :=
  match s with
  | EmptyString => (EmptyString, EmptyString)
  | String c s' =>
      if Ascii.eqb c sep then (EmptyString, s')
      else let '(before, after) := split_once sep s' in
           (String c before, after)
  end.

Definition startswith (p s : string) : bool := String.prefix p s.

(** The slice [s[n:]]. *)
Fixpoint drop (n : nat) (s : string) : string :=
  match n, s with
  | O, _ => s
  | S n', String _ s' => drop n' s'
  | S _, EmptyString => EmptyString
  end.

Definition digit_value (c : ascii) : Z := ord c - 48.

Fixpoint digits_value (acc : Z) (s : string) : option Z :=
  match s with
  | EmptyString => Some acc
  | String c s' =>
      if isdigit c then digits_value (10 * acc + digit_value c) s'
      else None
  end.

(** [str(n)] on an integer, as used by the f-strings. *)
Definition str (n : Z) : string := pretty n.

(** [sys.get_int_max_str_digits()], at CPython's default. *)
Definition int_max_str_digits : Z := 4300.

(** The message of the [ValueError] of [int] on too long a text. *)
Definition int_limit_error (digits : Z) : string :=
  "Exceeds the limit (" +:+ str int_max_str_digits
  +:+ " digits) for integer string conversion: value has " +:+ str digits
  +:+ " digits; use sys.set_int_max_str_digits() to increase the limit".

(** [int(s)] on the texts the validator passes to it: surrounding white
    space is ignored, the rest must be a non-empty run of digits, and a run
    of more than [int_max_str_digits] digits (leading zeros counted) is
    refused.  (Signs and digit grouping, which [int] also reads, cannot
    reach it: the caller has matched the text against [\d+] first.) *)
Definition int (s : string) : Result Z :=
  let text := strip s in
  match text with
  | EmptyString => Raise "invalid literal for int() with base 10"
  | String _ _ =>
      match digits_value 0 text with
      | None => Raise "invalid literal for int() with base 10"
      | Some n =>
          let digits := Z.of_nat (String.length text) in
          if int_max_str_digits <? digits then Raise (int_limit_error digits)
          else Ok n
      end
  end.

End PyStr.

(** ** GameValidator: tile addressing *)

(** [LEVEL_MAX], keyed by the one-character level name. *)
Definition LEVEL_MAX (level : ascii) : option Z :=
  match level with
  | "A"%char => Some 1
  | "B"%char => Some 4
  | "C"%char => Some 8
  | "D"%char => Some 16
  | "E"%char => Some 32
  | _ => None
  end.

(** [\d*$]: digits up to the end of the text, where [$] also matches just
    before a newline that ends the text. *)
Fixpoint re_digits_end (s : string) : bool :=
  match s with
  | EmptyString => true
  | String c s' =>
      if PyStr.isdigit c then re_digits_end s'
      else Ascii.eqb c PyStr.newline && String.eqb s' EmptyString
  end.

(** [re.match(r'^[A-E]\d+$', tile_str)] on a text of characters below
    U+0100. *)
Definition re_match_tile (tile_str : string) : bool :=
  match tile_str with
  | String l (String d rest) =>
      (65 <=? PyStr.ord l) && (PyStr.ord l <=? 69)
      && PyStr.isdigit d && re_digits_end rest
  | _ => false
  end.

Definition parse_tile (tile_str : string) : Result (ascii * Z) :=
  if negb (re_match_tile tile_str) then
    Raise ("Invalid tile format: " +:+ tile_str)
  else
    match tile_str with
    | EmptyString => Raise ("Invalid tile format: " +:+ tile_str)
    | String level rest =>
        match PyStr.int rest with
        | Raise msg => Raise msg
        | Ok number =>
            match LEVEL_MAX level with
            | None => Raise ("Invalid level: " +:+ String level EmptyString)
            | Some level_max =>
                if (number <? 1) || (level_max <? number) then
                  Raise ("Invalid tile number " +:+ PyStr.str number
                         +:+ " for level " +:+ String level EmptyString)
                else Ok (level, number)
            end
        end
    end.

(** ** GameValidator: move classification and cost *)

(** A rule that does not apply falls through to the next one. *)
Definition or_else {A : Type} (r : option A) (next : A) : A :=
  match r with
  | Some a => a
  | None => next
  end.
Notation "r 'orelse' next" := (or_else r next)
  (at level 70, right associativity, only parsing).

Definition MoveResult : Type := bool * string * Z.

Definition rule_same_level (from_level to_level : ascii) (from_num to_num : Z)
  : option MoveResult :=
  if Ascii.eqb from_level to_level then
    (* a level returned by [parse_tile] is a key of [LEVEL_MAX] *)
    let level_max := default 0 (LEVEL_MAX from_level) in
    if ((from_num <? level_max) && (to_num =? from_num + 1))
       || ((from_num =? level_max) && (to_num =? 1))
    then Some (true, "clockwise", 1)
    else if ((1 <? from_num) && (to_num =? from_num - 1))
            || ((from_num =? 1) && (to_num =? level_max))
    then Some (true, "counter_clockwise", 1)
    else None
  else None.

Definition rule_inward (from_level to_level : ascii) (from_num to_num : Z)
  : option MoveResult :=
  if PyStr.ord to_level =? PyStr.ord from_level - 1 then
    let expected_to := (from_num + 1) / 2 in
    if to_num =? expected_to then Some (true, "inward", 2) else None
  else None.

Definition rule_outward (from_level to_level : ascii) (from_num to_num : Z)
  : option MoveResult :=
  if PyStr.ord to_level =? PyStr.ord from_level + 1 then
    if to_num =? 2 * from_num - 1 then Some (true, "outward_left", 1)
    else if to_num =? 2 * from_num then Some (true, "outward_right", 1)
    else None
  else None.

Definition rule_from_peak (from_tile : string) (to_level : ascii)
  : option MoveResult :=
  if String.eqb from_tile "A1" && Ascii.eqb to_level "B"
  then Some (true, "outward_from_peak", 1) else None.

Definition rule_to_peak (from_level : ascii) (to_tile : string)
  : option MoveResult :=
  if Ascii.eqb from_level "B" && String.eqb to_tile "A1"
  then Some (true, "inward_to_peak", 2) else None.

(** Returns [(valid, move_type, mp_cost)]. *)
Definition is_valid_move (from_tile to_tile : string) : MoveResult :=
  match parse_tile from_tile, parse_tile to_tile with
  | Ok (from_level, from_num), Ok (to_level, to_num) =>
      rule_same_level from_level to_level from_num to_num orelse
      rule_inward from_level to_level from_num to_num orelse
      rule_outward from_level to_level from_num to_num orelse
      rule_from_peak from_tile to_level orelse
      rule_to_peak from_level to_tile orelse
      (false, "invalid_move", 0)
  | _, _ => (false, "invalid_tile", 0)
  end.

Definition base_costs : gmap string Z :=
  list_to_map
    [ ("clockwise", 1); ("counter_clockwise", 1);
      ("outward_left", 1); ("outward_right", 1); ("outward_from_peak", 1);
      ("inward", 2); ("inward_to_peak", 2) ].

Definition calculate_mp_cost (move_type : string) (has_ladder : bool) : Z :=
  let cost := default 0 (base_costs !! move_type) in
  if has_ladder && bool_decide (move_type ∈ ["inward"; "inward_to_peak"])
  then 1 else cost.

(** ** GameState *)

Record GameState : Type := mkGameState {
  position : option string;
  collected_items : gset string;
  blocked_tiles : gset string;
  collectibles : list (string * string);   (* item_type, tile_location *)
  has_ladder : bool;
  has_key : bool;
  dynamite_used : bool
}.

(** [GameState.__init__]. *)
Definition new_GameState (blocked : list string)
    (items : list (string * string)) : GameState :=
  {| position := None;
     collected_items := ∅;
     blocked_tiles := list_to_set blocked;
     collectibles := items;
     has_ladder := false;
     has_key := false;
     dynamite_used := false |}.

(** The body of the [if] inside [collect_item]: record the item and raise
    the flag that goes with it. *)
Definition mark_collected (item_type : string) (gs : GameState) : GameState :=
  let ladder := bool_decide (item_type = "ladder") in
  let key := negb ladder && bool_decide (item_type = "key") in
  {| position := position gs;
     collected_items := {[ item_type ]} ∪ collected_items gs;
     blocked_tiles := blocked_tiles gs;
     collectibles := collectibles gs;
     has_ladder := if ladder then true else has_ladder gs;
     has_key := if key then true else has_key gs;
     dynamite_used := dynamite_used gs |}.

(** The [for] loop of [collect_item] over the remaining dictionary entries. *)
Fixpoint collect_scan (items : list (string * string)) (tile : string)
    (gs : GameState) : option string * GameState :=
  match items with
  | [] => (None, gs)
  | (item_type, location) :: rest =>
      if bool_decide (location = tile)
         && bool_decide (item_type ∉ collected_items gs)
      then (Some item_type, mark_collected item_type gs)
      else collect_scan rest tile gs
  end.

Definition collect_item (tile : string) (gs : GameState)
  : option string * GameState :=
  collect_scan (collectibles gs) tile gs.

Definition use_dynamite (target_tile : string) (gs : GameState)
  : bool * GameState :=
  if bool_decide ("dynamite" ∈ collected_items gs) && negb (dynamite_used gs)
  then
    if bool_decide (target_tile ∈ blocked_tiles gs) then
      (true,
       {| position := position gs;
          collected_items := collected_items gs;
          blocked_tiles := blocked_tiles gs ∖ {[ target_tile ]};
          collectibles := collectibles gs;
          has_ladder := has_ladder gs;
          has_key := has_key gs;
          dynamite_used := true |})
    else (false, gs)
  else (false, gs).

(** ** GameValidator: path parsing *)

Inductive Action : Type :=
| Move (tile : string)
| Collect (tile item : string)
| Clear (tile : string).

(** The body of the loop of [parse_path]: one element, one action. *)
Definition parse_element (element : string) : Action :=
  let element := PyStr.strip element in
  if PyStr.contains ":" element then
    if PyStr.startswith "clear:" element then Clear (PyStr.drop 6 element)
    else let '(tile, item) := PyStr.split_once ":" element in
         Collect tile item
  else Move element.

Definition parse_path (path_str : string) : Result (list Action) :=
  if String.eqb path_str EmptyString then Raise "Empty path"
  else Ok (map parse_element (PyStr.split "|" path_str)).

(** ** Scenario configuration *)

(** The parts of the scenario dictionary: the tiles of its ["blocked"]
    entries, the [(type, location)] pairs of its ["collectibles"], the
    ["requires"] list of its objective and the ["optimal_mp"] of its
    solution ([None] when the solution or the value is absent). *)
Record Scenario : Type := mkScenario {
  sc_blocked : list string;
  sc_collectibles : list (string * string);
  sc_requires : list string;
  sc_optimal_mp : option Z
}.

(** [d[k] = v] on a dictionary kept in insertion order. *)
Fixpoint dict_set (k v : string) (d : list (string * string))
  : list (string * string) :=
  match d with
  | [] => [(k, v)]
  | (k', v') :: d' =>
      if bool_decide (k' = k) then (k, v) :: d' else (k', v') :: dict_set k v d'
  end.

(** The dictionary comprehension [{item["type"]: item["location"] ...}]. *)
Definition dict_of_items (items : list (string * string))
  : list (string * string) :=
  fold_left (fun d '(k, v) => dict_set k v d) items [].

(** ** GameValidator: the path interpreter *)

(** The local variables of [validate_path] that the loop updates. *)
Record Interp : Type := mkInterp {
  game_state : GameState;
  total_mp : Z;
  current_position : option string
}.

(** One iteration of the loop either goes on to the next action or leaves
    [validate_path] with [(False, msg, total_mp)]; the state reached is kept
    in both cases. *)
Inductive Outcome : Type :=
| Continue (st : Interp)
| Return (st : Interp) (msg : string).

(** [str(current_position)] inside an f-string. *)
Definition show_position (p : option string) : string :=
  match p with
  | Some tile => tile
  | None => "None"
  end.

Definition step_move (i : Z) (tile : string) (st : Interp) : Outcome :=
  if bool_decide (tile ∈ blocked_tiles (game_state st)) then
    Return st ("Cannot move to blocked tile " +:+ tile +:+ " at step "
               +:+ PyStr.str (i + 1))
  else
    match current_position st with
    | None =>
        match parse_tile tile with
        | Ok (level, _) =>
            if negb (Ascii.eqb level "E") then
              Return st ("Must start from E-level tile, not " +:+ tile)
            else
              Continue {| game_state := game_state st;
                          total_mp := total_mp st;
                          current_position := Some tile |}
        | Raise _ => Return st ("Invalid starting tile: " +:+ tile)
        end
    | Some current =>
        let '(is_valid, move_type, base_cost) := is_valid_move current tile in
        if negb is_valid then
          Return st ("Invalid move from " +:+ current +:+ " to " +:+ tile
                     +:+ " at step " +:+ PyStr.str (i + 1))
        else
          let mp_cost :=
            calculate_mp_cost move_type (has_ladder (game_state st)) in
          Continue {| game_state := game_state st;
                      total_mp := total_mp st + mp_cost;
                      current_position := Some tile |}
    end.

Definition step_collect (tile item : string) (st : Interp) : Outcome :=
  if negb (bool_decide (current_position st = Some tile)) then
    Return st ("Cannot collect " +:+ item +:+ " from " +:+ tile
               +:+ " - not at that position (currently at "
               +:+ show_position (current_position st) +:+ ")")
  else
    let '(collected_item, gs) := collect_item tile (game_state st) in
    let st' := {| game_state := gs;
                  total_mp := total_mp st;
                  current_position := current_position st |} in
    if negb (bool_decide (collected_item = Some item)) then
      Return st' ("No " +:+ item +:+ " available at " +:+ tile)
    else Continue st'.

Definition step_clear (target_tile : string) (st : Interp) : Outcome :=
  let '(cleared, gs) := use_dynamite target_tile (game_state st) in
  let st' := {| game_state := gs;
                total_mp := total_mp st;
                current_position := current_position st |} in
  if negb cleared then
    if negb (bool_decide ("dynamite" ∈ collected_items gs)) then
      Return st' ("Cannot clear " +:+ target_tile
                  +:+ " - no dynamite collected")
    else if dynamite_used gs then
      Return st' ("Cannot clear " +:+ target_tile
                  +:+ " - dynamite already used")
    else
      Return st' ("Cannot clear " +:+ target_tile +:+ " - tile not blocked")
  else Continue st'.

Definition step (i : Z) (action : Action) (st : Interp) : Outcome :=
  match action with
  | Move tile => step_move i tile st
  | Collect tile item => step_collect tile item st
  | Clear target_tile => step_clear target_tile st
  end.

(** [for i, action in enumerate(actions)], from index [i] on. *)
Fixpoint run_actions (i : Z) (actions : list Action) (st : Interp) : Outcome :=
  match actions with
  | [] => Continue st
  | action :: rest =>
      match step i action st with
      | Continue st' => run_actions (i + 1) rest st'
      | Return st' msg => Return st' msg
      end
  end.

Definition initial_state (scenario_config : Scenario) : Interp :=
  {| game_state := new_GameState (sc_blocked scenario_config)
                     (dict_of_items (sc_collectibles scenario_config));
     total_mp := 0;
     current_position := None |}.

(** The two checks after the loop. *)
Definition final_checks (st : Interp) : bool * string * Z :=
  if negb (bool_decide (current_position st = Some "A1")) then
    (false, "Path must end at A1, ended at "
            +:+ show_position (current_position st), total_mp st)
  else if negb (has_key (game_state st)) then
    (false, "Must collect key before reaching A1", total_mp st)
  else (true, "Path is valid", total_mp st).

(** Returns [(is_valid, error_message, total_mp)]. *)
Definition validate_path (path_str : string) (scenario_config : Scenario)
  : bool * string * Z :=
  match parse_path path_str with
  | Raise e => (false, "Path parsing error: " +:+ e, 0)
  | Ok actions =>
      match run_actions 0 actions (initial_state scenario_config) with
      | Return st msg => (false, msg, total_mp st)
      | Continue st => final_checks st
      end
  end.

(** ** validate_puzzle_solution *)

Record Verdict : Type := mkVerdict {
  is_valid : bool;
  message : string;
  verdict_total_mp : Z;
  optimal_mp : option Z;
  is_optimal : bool
}.

Definition validate_puzzle_solution (path_str : string)
    (scenario_config : Scenario) : Verdict :=
  let '(valid, msg, mp) := validate_path path_str scenario_config in
  let optimal := sc_optimal_mp scenario_config in
  let optimal_flag :=
    if valid then
      match optimal with
      | Some o => mp =? o
      | None => false
      end
    else false in
  {| is_valid := valid;
     message := msg;
     verdict_total_mp := mp;
     optimal_mp := optimal;
     is_optimal := optimal_flag |}.

(** ** The grammar of the specification

    These definitions follow the wording of the specification, not the
    code: a tile is [LEVEL[1-9][0-9]*] and a token is a tile, a
    [tile:identifier] pair or [clear:tile]. *)

Definition is_level (c : ascii) : bool :=
  (65 <=? PyStr.ord c) && (PyStr.ord c <=? 69).

Fixpoint all_digits (s : string) : bool :=
  match s with
  | EmptyString => true
  | String c s' => PyStr.isdigit c && all_digits s'
  end.

Definition spec_tile_grammar (s : string) : bool :=
  match s with
  | String l (String d rest) =>
      is_level l && (49 <=? PyStr.ord d) && (PyStr.ord d <=? 57)
      && all_digits rest
  | _ => false
  end.

Definition is_identifier_char (c : ascii) : bool :=
  let n := PyStr.ord c in
  ((65 <=? n) && (n <=? 90)) || ((97 <=? n) && (n <=? 122))
  || PyStr.isdigit c || (n =? 95).

Fixpoint all_identifier_chars (s : string) : bool :=
  match s with
  | EmptyString => true
  | String c s' => is_identifier_char c && all_identifier_chars s'
  end.

Definition spec_identifier (s : string) : bool :=
  match s with
  | EmptyString => false
  | String _ _ => all_identifier_chars s
  end.

Definition spec_token_grammar (token : string) : bool :=
  spec_tile_grammar token
  || (PyStr.startswith "clear:" token
      && spec_tile_grammar (PyStr.drop 6 token))
  || (PyStr.contains ":" token
      && let '(tile, item) := PyStr.split_once ":" token in
         spec_tile_grammar tile && spec_identifier item).

(** The tile text accepted by the code's pattern when no newline is
    involved: a level letter and one or more digits. *)
Definition loose_tile_shape (s : string) : bool :=
  match s with
  | String l (String d rest) => is_level l && PyStr.isdigit d && all_digits rest
  | _ => false
  end.

(** ** Observations on runs *)

Definition outcome_state (o : Outcome) : Interp :=
  match o with
  | Continue st => st
  | Return st _ => st
  end.

Definition is_key_collect (a : Action) : bool :=
  match a with
  | Collect _ item => bool_decide (item = "key")
  | _ => false
  end.

(** Whether the path has a Collect action for the item ["key"]. *)
Definition collects_key (actions : list Action) : bool :=
  existsb is_key_collect actions.

(** The verdict message is the parse error of [validate_path]. *)
Definition is_parse_error (msg : string) : bool :=
  String.prefix "Path parsing error: " msg.

(** What the Move of one loop iteration adds to [total_mp]: nothing for the
    placement on the starting tile, the ladder-adjusted cost of the
    classified transition otherwise. *)
Definition move_charge (tile : string) (st : Interp) : Z :=
  match current_position st with
  | None => 0
  | Some current =>
      calculate_mp_cost (is_valid_move current tile).1.2
        (has_ladder (game_state st))
  end.

(** The charges of the Move transitions of a run that goes through all of
    [actions], in order. *)
Fixpoint move_charges (i : Z) (actions : list Action) (st : Interp) : list Z :=
  match actions with
  | [] => []
  | action :: rest =>
      match step i action st with
      | Continue st' =>
          match action with
          | Move tile => move_charge tile st :: move_charges (i + 1) rest st'
          | _ => move_charges (i + 1) rest st'
          end
      | Return _ _ => []
      end
  end.

Definition sum_Z (l : list Z) : Z := foldr Z.add 0 l.

(** What holds of the game state throughout an evaluation that starts with
    the blocked set [init]: the dynamite is marked used only once it has
    been collected, and the blocked set is [init] until the dynamite is used
    and [init] less one tile afterwards. *)
Definition clear_inv (init : gset string) (gs : GameState) : Prop :=
  (dynamite_used gs = true → "dynamite" ∈ collected_items gs)
  ∧ (if dynamite_used gs then ∃ t, blocked_tiles gs = init ∖ {[ t ]}
     else blocked_tiles gs = init).

(** An interpreter state on B3 after three inward moves, with or without
    the ladder. *)
Definition at_B3 (ladder : bool) : Interp :=
  {| game_state :=
       {| position := None; collected_items := ∅; blocked_tiles := ∅;
          collectibles := []; has_ladder := ladder; has_key := false;
          dynamite_used := false |};
     total_mp := 6;
     current_position := Some "B3" |}.

(** ** Further observations on tiles, paths and runs *)

(** The text of a tile, [f"{level}{number}"]. *)
Definition tile_text (level : ascii) (number : Z) : string :=
  String level (PyStr.str number).

(** The tiles named by the Move actions, in order. *)
Fixpoint move_tiles (actions : list Action) : list string :=
  match actions with
  | [] => []
  | Move tile :: rest => tile :: move_tiles rest
  | _ :: rest => move_tiles rest
  end.

(** The items named by the Collect actions, with the tile they name. *)
Fixpoint collect_requests (actions : list Action) : list (string * string) :=
  match actions with
  | [] => []
  | Collect tile item :: rest => (item, tile) :: collect_requests rest
  | _ :: rest => collect_requests rest
  end.

(** The targets of the Clear actions. *)
Fixpoint clear_targets (actions : list Action) : list string :=
  match actions with
  | [] => []
  | Clear tile :: rest => tile :: clear_targets rest
  | _ :: rest => clear_targets rest
  end.

(** The text parses as a tile. *)
Definition is_tile (s : string) : bool :=
  match parse_tile s with
  | Ok _ => true
  | Raise _ => false
  end.

(** The level letter of a tile text. *)
Definition level_of (s : string) : option ascii :=
  match parse_tile s with
  | Ok (level, _) => Some level
  | Raise _ => None
  end.

(** The number of occurrences of a character. *)
Fixpoint count_char (c : ascii) (s : string) : nat :=
  match s with
  | EmptyString => O
  | String d s' => (if Ascii.eqb d c then 1 else 0)%nat + count_char c s'
  end.

(** The number of Moves that are charged: all of them, but the first when
    the actor is not placed yet. *)
Definition charged_moves (actions : list Action) (st : Interp) : Z :=
  match current_position st with
  | None => Z.of_nat (length (move_tiles actions) - 1)
  | Some _ => Z.of_nat (length (move_tiles actions))
  end.


(** What a run keeps when every move towards the apex costs at least [k]
    (1 in general, 2 where the scenario has no ladder): the total is at
    least [k] times the number of levels climbed from the base ring. *)
Definition climb_inv (k : Z) (st : Interp) : Prop :=
  0 ≤ total_mp st
  ∧ (k = 2 →
     ("ladder" ∉ (collectibles (game_state st)).*1)
     ∧ has_ladder (game_state st) = false)
  ∧ match current_position st with
    | Some tile =>
        ∃ l n, parse_tile tile = Ok (l, n)
               ∧ k * (69 - PyStr.ord l) ≤ total_mp st
    | None => True
    end.

(** What every state of an evaluation over the collectibles [items]
    satisfies: the flags say what the collected set says, only items of the
    scenario are collected, and the actor stands on a well-formed tile that
    is not blocked. *)
Definition state_inv (items : list (string * string)) (st : Interp) : Prop :=
  collectibles (game_state st) = items
  ∧ has_ladder (game_state st)
    = bool_decide ("ladder" ∈ collected_items (game_state st))
  ∧ has_key (game_state st)
    = bool_decide ("key" ∈ collected_items (game_state st))
  ∧ (∀ item, item ∈ collected_items (game_state st) → item ∈ items.*1)
  ∧ (∀ tile, current_position st = Some tile →
             is_tile tile = true ∧ tile ∉ blocked_tiles (game_state st)).

(** ** The response checks of the client and of the benchmark runner *)

(** A value found in a parsed response: a string, or a value of another
    type ([None], a number, a list, a dictionary, ...) of which only the
    truth value can matter. *)
Inductive PyVal : Type :=
| VStr (s : string)
| VOther (truthy : bool).

(** A parsed response: a dictionary with string keys, given by its entries,
    or anything else ([None] when no JSON was found), known by its truth
    value. *)
Inductive Response : Type :=
| RDict (d : list (string * PyVal))
| ROther (truthy : bool).

(** [bool(response_json)]. *)
Definition truthy (r : Response) : bool :=
  match r with
  | RDict d => match d with [] => false | _ :: _ => true end
  | ROther b => b
  end.

(** [d.get(k)] on the entries of a dictionary. *)
Fixpoint dict_get (k : string) (d : list (string * PyVal)) : option PyVal :=
  match d with
  | [] => None
  | (k', v) :: d' => if String.eqb k' k then Some v else dict_get k d'
  end.

(** [OpenRouterClient.validate_response_format]. *)
Definition validate_response_format (response_json : Response)
  : bool * string :=
  match response_json with
  | RDict d =>
      match dict_get "path" d with
      | None => (false, "Missing 'path' field in response")
      | Some path =>
          match dict_get "analysis" d with
          | None => (false, "Missing 'analysis' field in response")
          | Some analysis =>
              match path with
              | VStr path_str =>
                  match analysis with
                  | VStr _ =>
                      if String.eqb (PyStr.strip path_str) EmptyString
                      then (false, "'path' field cannot be empty")
                      else (true, "Valid response format")
                  | _ => (false, "'analysis' field must be a string")
                  end
              | _ => (false, "'path' field must be a string")
              end
          end
      end
  | _ => (false, "Response is not a valid JSON object")
  end.

(** The dictionary returned by [_evaluate_response]; ["optimal_mp"] is
    present only when the path was evaluated. *)
Record Evaluation : Type := mkEvaluation {
  is_valid_format : bool;
  format_error : string;
  is_valid_path : bool;
  path_error : string;
  eval_total_mp : Z;
  eval_is_optimal : bool;
  eval_optimal_mp : option (option Z)
}.

(** [BenchmarkRunner._evaluate_response], on the configuration of the
    scenario being run. *)
Definition _evaluate_response (response_json : Response) (config : Scenario)
  : Evaluation :=
  if negb (truthy response_json) then
    {| is_valid_format := false;
       format_error := "Could not parse JSON response";
       is_valid_path := false;
       path_error := "No valid response to evaluate";
       eval_total_mp := 0;
       eval_is_optimal := false;
       eval_optimal_mp := None |}
  else
    let '(format_valid, format_err) :=
      validate_response_format response_json in
    if negb format_valid then
      {| is_valid_format := false;
         format_error := format_err;
         is_valid_path := false;
         path_error := "Invalid format prevents path validation";
         eval_total_mp := 0;
         eval_is_optimal := false;
         eval_optimal_mp := None |}
    else
      match response_json with
      | RDict d =>
          match dict_get "path" d with
          | Some (VStr path) =>
              let validation_result := validate_puzzle_solution path config in
              {| is_valid_format := true;
                 format_error := EmptyString;
                 is_valid_path := is_valid validation_result;
                 path_error :=
                   if negb (is_valid validation_result)
                   then message validation_result else EmptyString;
                 eval_total_mp := verdict_total_mp validation_result;
                 eval_is_optimal := is_optimal validation_result;
                 eval_optimal_mp := Some (optimal_mp validation_result) |}
          | _ =>
              (* unreachable: the format check has found a string there *)
              {| is_valid_format := true;
                 format_error := EmptyString;
                 is_valid_path := false;
                 path_error := EmptyString;
                 eval_total_mp := 0;
                 eval_is_optimal := false;
                 eval_optimal_mp := None |}
          end
      | _ =>
          {| is_valid_format := true;
             format_error := EmptyString;
             is_valid_path := false;
             path_error := EmptyString;
             eval_total_mp := 0;
             eval_is_optimal := false;
             eval_optimal_mp := None |}
      end.

(** ** The attempts of the benchmark runner on one scenario *)

(** The [final_result] dictionary; ["total_mp"] is absent from the results
    that report a failure. *)
Record FinalResult : Type := mkFinalResult {
  success : bool;
  final_is_optimal : bool;
  final_total_mp : option Z
}.

(** [response_json.get(...) if response_json else ""], evaluated while the
    interaction record is built, raises [AttributeError] on a response that
    is true but is not a dictionary. *)
Definition raises_on_get (response_json : Response) : bool :=
  if truthy response_json then
    match response_json with
    | RDict _ => false
    | ROther _ => true        (* no attribute [get] *)
    end
  else false.

(** A loop of [_run_scenario_for_model] leaves the function with a final
    result, falls through with the interactions so far, or is left by the
    [AttributeError], before the interaction at hand is recorded. *)
Inductive LoopExit : Type :=
| Returned (final_result : FinalResult) (interactions : list Evaluation)
| FellThrough (interactions : list Evaluation)
| Raised (interactions : list Evaluation).

(** What a call of [_run_scenario_for_model] ends with: the final result it
    returns, or the [AttributeError] it raises; in both cases with the
    interactions recorded. *)
Inductive RunOutcome : Type :=
| Finished (final_result : FinalResult) (interactions : list Evaluation)
| AttributeError (interactions : list Evaluation).

Section Runner.

(** The parsed response the client returns to each call, numbered from 0,
    and the configuration of the scenario.  The prompt sent, the raw text,
    the token counts, the log and the report play no part in the result. *)
Variable send_message : nat → Response.
Variable config : Scenario.

(** [for retry in range(4)], with [n] iterations to go. *)
Fixpoint retry_loop (n : nat) (interactions : list Evaluation) : LoopExit :=
  match n with
  | O => FellThrough interactions
  | S n' =>
      let response_json := send_message (length interactions) in
      let evaluation := _evaluate_response response_json config in
      if raises_on_get response_json then Raised interactions
      else
        let interactions := interactions ++ [evaluation] in
        if is_valid_format evaluation && is_valid_path evaluation then
          if eval_is_optimal evaluation then
            Returned {| success := true; final_is_optimal := true;
                        final_total_mp := Some (eval_total_mp evaluation) |}
                     interactions
          else FellThrough interactions        (* break *)
        else retry_loop n' interactions
  end.

(** [for i, hint in enumerate(hints)]. *)
Fixpoint hint_loop (hints : list string) (interactions : list Evaluation)
  : LoopExit :=
  match hints with
  | [] => FellThrough interactions
  | _ :: hints' =>
      let response_json := send_message (length interactions) in
      let evaluation := _evaluate_response response_json config in
      if raises_on_get response_json then Raised interactions
      else
        let interactions := interactions ++ [evaluation] in
        if is_valid_path evaluation && eval_is_optimal evaluation then
          Returned {| success := true; final_is_optimal := true;
                      final_total_mp := Some (eval_total_mp evaluation) |}
                   interactions
        else hint_loop hints' interactions
  end.

(** [max(candidates, key=total_mp, default=None)]: the first candidate of
    greatest total. *)
Fixpoint max_by_total (best : option Evaluation) (candidates : list Evaluation)
  : option Evaluation :=
  match candidates with
  | [] => best
  | e :: rest =>
      match best with
      | None => max_by_total (Some e) rest
      | Some b =>
          if eval_total_mp b <? eval_total_mp e
          then max_by_total (Some e) rest
          else max_by_total best rest
      end
  end.

(** [BenchmarkRunner._run_scenario_for_model], for the hints of the
    scenario that are not empty. *)
Definition _run_scenario_for_model (hints : list string) : RunOutcome :=
  match retry_loop 4 [] with
  | Raised interactions => AttributeError interactions
  | Returned final_result interactions => Finished final_result interactions
  | FellThrough interactions =>
      match last interactions with
      | None =>
          (* unreachable: the first loop has made an interaction *)
          Finished {| success := false; final_is_optimal := false;
                      final_total_mp := None |} interactions
      | Some last_interaction =>
          if negb (is_valid_path last_interaction) then
            Finished {| success := false; final_is_optimal := false;
                        final_total_mp := None |} interactions
          else
            match hint_loop hints interactions with
            | Raised interactions' => AttributeError interactions'
            | Returned final_result interactions' =>
                Finished final_result interactions'
            | FellThrough interactions' =>
                match max_by_total None
                        (filter (λ e, is_valid_path e = true) interactions')
                with
                | Some best_interaction =>
                    Finished {| success := true; final_is_optimal := false;
                                final_total_mp :=
                                  Some (eval_total_mp best_interaction) |}
                             interactions'
                | None =>
                    Finished {| success := false; final_is_optimal := false;
                                final_total_mp := None |} interactions'
                end
            end
      end
  end.

End Runner.

(** The evaluations of the first [n] responses, in order. *)
Definition evaluations (send_message : nat → Response) (config : Scenario)
    (n : nat) : list Evaluation :=
  map (λ k, _evaluate_response (send_message k) config) (seq 0 n).

(** Responses and a scenario to run the attempts on: a first answer that
    wanders on the base ring, then the direct climb, where the scenario
    declares a cheaper optimum. *)
Definition sample_config : Scenario :=
  mkScenario [] [("key", "D1")] ["key"] (Some 7).

Definition sample_answer (path : string) : Response :=
  RDict [("path", VStr path); ("analysis", VStr "climb")].

Definition sample_send_message (call : nat) : Response :=
  match call with
  | O => sample_answer "E2|E1|D1|D1:key|C1|B1|A1"
  | _ => sample_answer "E1|D1|D1:key|C1|B1|A1"
  end.

(** The text is made of white space only. *)
Fixpoint all_space (s : string) : bool :=
  match s with
  | EmptyString => true
  | String c s' => PyStr.isspace c && all_space s'
  end.

(** A client whose second answer is a JSON list. *)
Definition list_send_message (call : nat) : Response :=
  match call with
  | 1%nat => ROther true
  | _ => ROther false
  end.

(** A tile text of 4301 digits. *)
Fixpoint repeat_char (c : ascii) (n : nat) : string :=
  match n with
  | O => EmptyString
  | S n' => String c (repeat_char c n')
  end.

Definition long_tile_text : string :=
  String "E" (repeat_char "1" (Z.to_nat 4301)).

(** * Properties *)

(** ** Tile addressing *)

Section TileFacts.

Lemma level_max_cases (l : ascii) (m : Z) :
  LEVEL_MAX l = Some m →
  (l = "A"%char ∧ m = 1) ∨ (l = "B"%char ∧ m = 4) ∨ (l = "C"%char ∧ m = 8)
  ∨ (l = "D"%char ∧ m = 16) ∨ (l = "E"%char ∧ m = 32).
Proof.
  destruct l as [[] [] [] [] [] [] [] []]; simpl; intros H;
    try discriminate H; injection H as <-; auto 10.
Qed.

(** A parsed tile has a level of [LEVEL_MAX] and an index within it. *)
Lemma parse_tile_Ok_inv (s : string) (l : ascii) (n : Z) :
  parse_tile s = Ok (l, n) →
  ∃ rest m, s = String l rest ∧ LEVEL_MAX l = Some m ∧ 1 ≤ n ≤ m.
Proof.
  unfold parse_tile.
  destruct (negb (re_match_tile s)); [discriminate|].
  destruct s as [|c rest]; [discriminate|].
  destruct (PyStr.int rest) as [number|m]; [|discriminate].
  destruct (LEVEL_MAX c) as [m|] eqn:Hm; [|discriminate].
  destruct ((number <? 1) || (m <? number)) eqn:Hr; [discriminate|].
  intros [= <- <-]. exists rest, m.
  apply orb_false_iff in Hr as [H1 H2].
  apply Z.ltb_ge in H1, H2. auto.
Qed.

End TileFacts.

(** ** Move classification *)

(** Decide the integer tests of a goal and close the impossible branches. *)
Ltac case_Z :=
  repeat match goal with
    | |- context [ (?a =? ?b)%Z ] => destruct (Z.eqb_spec a b)
    | |- context [ (?a <? ?b)%Z ] => destruct (Z.ltb_spec a b)
    | |- context [ (?a <=? ?b)%Z ] => destruct (Z.leb_spec a b)
    end; simpl; try reflexivity; try lia.

Lemma self_move_cases (s : string) (l : ascii) (n : Z) :
  parse_tile s = Ok (l, n) →
  is_valid_move s s =
    if Ascii.eqb l "A" then (true, "clockwise", 1)
    else (false, "invalid_move", 0).
Proof.
  intros H. unfold is_valid_move. rewrite H.
  destruct (parse_tile_Ok_inv _ _ _ H) as (rest & m & -> & Hm & Hn).
  destruct (level_max_cases _ _ Hm) as [[-> ->]|[[-> ->]|[[-> ->]|[[-> ->]|[-> ->]]]]];
    unfold rule_same_level, rule_inward, rule_outward, rule_from_peak,
      rule_to_peak; cbn; case_Z.
Qed.

(** A same-tile pair on the one-tile level A matches the clockwise
    wrap-around ([from_num == level_max and to_num == 1]). *)
Lemma C1_self_move_A1_is_clockwise :
  parse_tile "A1" = Ok ("A"%char, 1)
  ∧ is_valid_move "A1" "A1" = (true, "clockwise", 1)
  ∧ is_valid_move "A1" "A1" ≠ (false, "invalid_move", 0).
Proof. repeat split; [reflexivity..|discriminate]. Qed.

(** C1, amended.  For every tile text [s] that parses to a tile of level B,
    C, D or E, classifying the move from [s] to [s] gives
    [(False, "invalid_move", 0)]; for a tile of the one-tile level A the
    rotation wrap-around applies and the same pair is a clockwise move of
    cost 1. *)
Theorem C1_self_move (s : string) (l : ascii) (n : Z) :
  parse_tile s = Ok (l, n) →
  is_valid_move s s =
    if Ascii.eqb l "A" then (true, "clockwise", 1)
    else (false, "invalid_move", 0).
Proof. apply self_move_cases. Qed.

Lemma C1_self_move_witness :
  parse_tile "E5" = Ok ("E"%char, 5)
  ∧ is_valid_move "E5" "E5" = (false, "invalid_move", 0).
Proof.
  split; [reflexivity|].
  apply (C1_self_move "E5" "E"%char 5). reflexivity.
Defined.

Lemma move_B_to_apex (s : string) (n : Z) :
  parse_tile s = Ok ("B"%char, n) →
  is_valid_move s "A1" =
    (true, if n <=? 2 then "inward" else "inward_to_peak", 2).
Proof.
  intros H. unfold is_valid_move. rewrite H.
  destruct (parse_tile_Ok_inv _ _ _ H) as (rest & m & -> & Hm & Hn).
  injection Hm as <-.
  assert (n = 1 ∨ n = 2 ∨ n = 3 ∨ n = 4) as [->|[->|[->| ->]]] by lia;
    reflexivity.
Qed.

Lemma cost_of_inward_moves (n : Z) (ladder : bool) :
  calculate_mp_cost (if n <=? 2 then "inward" else "inward_to_peak") ladder
  = if ladder then 1 else 2.
Proof. destruct (n <=? 2), ladder; reflexivity. Qed.

(** C6.  From every B-level tile the move to A1 is classified legal with
    base cost 2, as ["inward"] from index 1 or 2 and as ["inward_to_peak"]
    from index 3 or 4; in both cases [calculate_mp_cost] gives 1 with the
    ladder and 2 without, and that is what the interpreter adds to
    [total_mp] for the move. *)
Theorem C6_B_to_apex_cost (s : string) (n : Z) (i : Z) (st : Interp) :
  parse_tile s = Ok ("B"%char, n) →
  current_position st = Some s →
  "A1" ∉ blocked_tiles (game_state st) →
  is_valid_move s "A1" =
    (true, if n <=? 2 then "inward" else "inward_to_peak", 2)
  ∧ (∀ ladder : bool,
        calculate_mp_cost (is_valid_move s "A1").1.2 ladder
        = if ladder then 1 else 2)
  ∧ step i (Move "A1") st =
      Continue {| game_state := game_state st;
                  total_mp := total_mp st
                    + (if has_ladder (game_state st) then 1 else 2);
                  current_position := Some "A1" |}.
Proof.
  intros Hs Hpos Hfree.
  pose proof (move_B_to_apex s n Hs) as Hmove.
  split; [exact Hmove|]. split.
  - intros ladder. rewrite Hmove. apply cost_of_inward_moves.
  - simpl. unfold step_move.
    rewrite bool_decide_eq_false_2 by exact Hfree.
    rewrite Hpos, Hmove. simpl.
    rewrite cost_of_inward_moves. reflexivity.
Qed.

Lemma C6_B_to_apex_cost_witness :
  is_valid_move "B3" "A1" = (true, "inward_to_peak", 2)
  ∧ total_mp (outcome_state (step 4 (Move "A1") (at_B3 true))) = 7.
Proof.
  destruct (C6_B_to_apex_cost "B3" 3 4 (at_B3 true)) as (Hm & _ & Hstep).
  - reflexivity.
  - reflexivity.
  - simpl. apply not_elem_of_empty.
  - split; [exact Hm|]. rewrite Hstep. reflexivity.
Defined.

Section DigitFacts.

Lemma isdigit_not_space (c : ascii) :
  PyStr.isdigit c = true → PyStr.isspace c = false.
Proof.
  unfold PyStr.isdigit, PyStr.isspace. generalize (PyStr.ord c). intros z.
  case_Z.
Qed.

Lemma isdigit_not_newline (c : ascii) :
  PyStr.isdigit c = true → Ascii.eqb c PyStr.newline = false.
Proof.
  intros H. destruct (Ascii.eqb_spec c PyStr.newline) as [->|]; [|done].
  discriminate H.
Qed.

Lemma lstrip_digits (s : string) :
  all_digits s = true → PyStr.lstrip s = s.
Proof.
  destruct s as [|c s]; [done|]. simpl. intros [Hc _]%andb_true_iff.
  by rewrite (isdigit_not_space c Hc).
Qed.

Lemma rev_app_rev_app (s a b : string) :
  String.rev_app (String.rev_app s a) b = String.rev_app a (s +:+ b).
Proof.
  revert a b. induction s as [|c s IH]; intros a b; simpl; [done|].
  by rewrite IH.
Qed.

Lemma append_empty_r (s : string) : s +:+ EmptyString = s.
Proof.
  induction s as [|c s IH]; [done|].
  change (String c (s +:+ EmptyString) = String c s). by rewrite IH.
Qed.

Lemma rev_rev (s : string) : String.rev (String.rev s) = s.
Proof.
  unfold String.rev. rewrite rev_app_rev_app. simpl. apply append_empty_r.
Qed.

Lemma all_digits_rev_app (s acc : string) :
  all_digits (String.rev_app s acc) = all_digits s && all_digits acc.
Proof.
  revert acc. induction s as [|c s IH]; intros acc; simpl; [done|].
  rewrite IH. simpl. by destruct (PyStr.isdigit c), (all_digits s).
Qed.

Lemma strip_digits (s : string) :
  all_digits s = true → PyStr.strip s = s.
Proof.
  intros H. unfold PyStr.strip, PyStr.rstrip.
  rewrite (lstrip_digits s H), lstrip_digits, rev_rev; [done|].
  unfold String.rev. rewrite all_digits_rev_app, H. done.
Qed.

Lemma digits_value_total (s : string) (acc : Z) :
  all_digits s = true → 0 ≤ acc →
  ∃ n, PyStr.digits_value acc s = Some n ∧ 0 ≤ n.
Proof.
  revert acc. induction s as [|c s IH]; intros acc; simpl.
  - intros _ Hacc. by exists acc.
  - intros [Hc Hs]%andb_true_iff Hacc. rewrite Hc. apply IH; [done|].
    unfold PyStr.isdigit, PyStr.digit_value in *. case_Z.
    all: try discriminate Hc.
Qed.

(** On a non-empty run of digits [int] is the decimal value, unless the
    run is longer than the limit. *)
Lemma int_digits (c : ascii) (s : string) (n : Z) :
  all_digits (String c s) = true →
  PyStr.digits_value 0 (String c s) = Some n →
  PyStr.int (String c s) =
    if PyStr.int_max_str_digits <? Z.of_nat (String.length (String c s))
    then Raise (PyStr.int_limit_error
                  (Z.of_nat (String.length (String c s))))
    else Ok n.
Proof.
  intros H Hn. unfold PyStr.int. rewrite (strip_digits _ H). cbn zeta.
  by rewrite Hn.
Qed.

Lemma re_digits_end_no_newline (s : string) :
  PyStr.contains PyStr.newline s = false →
  re_digits_end s = all_digits s.
Proof.
  induction s as [|c s IH]; [done|].
  cbn [PyStr.contains re_digits_end all_digits].
  rewrite (Ascii.eqb_sym PyStr.newline c).
  destruct (Ascii.eqb c PyStr.newline) eqn:Hc; [discriminate|].
  intros H. rewrite (IH H). by destruct (PyStr.isdigit c).
Qed.

Lemma re_match_tile_no_newline (s : string) :
  PyStr.contains PyStr.newline s = false →
  re_match_tile s = loose_tile_shape s.
Proof.
  destruct s as [|l [|d rest]]; [done..|].
  intros H. cbn [PyStr.contains] in H.
  destruct (Ascii.eqb PyStr.newline l); [discriminate|].
  destruct (Ascii.eqb PyStr.newline d); [discriminate|].
  unfold re_match_tile, loose_tile_shape, is_level.
  by rewrite (re_digits_end_no_newline rest H).
Qed.

End DigitFacts.

Lemma is_level_has_max (l : ascii) :
  is_level l = true → ∃ cap, LEVEL_MAX l = Some cap.
Proof.
  destruct l as [[] [] [] [] [] [] [] []]; intros H;
    try discriminate H; eexists; reflexivity.
Qed.

Section NoOtherError.

Lemma rev_app_append (s t acc : string) :
  String.rev_app (s +:+ t) acc = String.rev_app t (String.rev_app s acc).
Proof.
  revert acc. induction s as [|c s IH]; intros acc; [done|].
  change (String.rev_app (s +:+ t) (String c acc)
          = String.rev_app t (String.rev_app s (String c acc))).
  apply IH.
Qed.

(** [int] ignores the newline that [$] lets through. *)
Lemma strip_digits_newline (s : string) :
  all_digits s = true →
  PyStr.strip (s +:+ String PyStr.newline EmptyString) = s.
Proof.
  intros H. destruct s as [|c0 s0] eqn:Hs; [reflexivity|]. rewrite <- Hs in *.
  unfold PyStr.strip, PyStr.rstrip.
  assert (PyStr.lstrip (s +:+ String PyStr.newline EmptyString)
          = s +:+ String PyStr.newline EmptyString) as ->.
  { rewrite Hs in *. simpl in H. apply andb_true_iff in H as [Hc _].
    change (String c0 s0 +:+ String PyStr.newline EmptyString)
      with (String c0 (s0 +:+ String PyStr.newline EmptyString)).
    cbn [PyStr.lstrip]. by rewrite (isdigit_not_space c0 Hc). }
  unfold String.rev at 2. rewrite rev_app_append.
  change (String.rev_app (String PyStr.newline EmptyString)
            (String.rev_app s EmptyString))
    with (String PyStr.newline (String.rev s)).
  change (PyStr.lstrip (String PyStr.newline (String.rev s)))
    with (PyStr.lstrip (String.rev s)).
  rewrite lstrip_digits, rev_rev; [done|].
  unfold String.rev. by rewrite all_digits_rev_app, H.
Qed.

Lemma re_digits_end_cases (s : string) :
  re_digits_end s = true →
  all_digits s = true
  ∨ ∃ ds, all_digits ds = true ∧ s = ds +:+ String PyStr.newline EmptyString.
Proof.
  induction s as [|c s IH]; [by left|].
  cbn [re_digits_end all_digits].
  destruct (PyStr.isdigit c) eqn:Hc.
  - intros [H|(ds & Hds & ->)]%IH; [by left|].
    right. exists (String c ds). split; [|done]. simpl. by rewrite Hc.
  - intros [->%Ascii.eqb_eq ->%String.eqb_eq]%andb_true_iff.
    right. by exists EmptyString.
Qed.

(** On a text matched by the pattern, [int] reads the digits of the tail,
    unless they are more than the limit. *)
Lemma int_after_match (l : ascii) (rest : string) :
  re_match_tile (String l rest) = true →
  ∃ n,
    PyStr.int rest =
      if PyStr.int_max_str_digits
         <? Z.of_nat (String.length (PyStr.strip rest))
      then Raise (PyStr.int_limit_error
                    (Z.of_nat (String.length (PyStr.strip rest))))
      else Ok n.
Proof.
  destruct rest as [|d rest]; [discriminate|].
  unfold re_match_tile.
  intros [[_ Hd]%andb_true_iff Hrest]%andb_true_iff.
  destruct (re_digits_end_cases (String d rest)) as [H|(ds & Hds & Heq)].
  - cbn [re_digits_end]. by rewrite Hd.
  - destruct (digits_value_total _ 0 H) as (n & Hn & _); [lia|].
    exists n. rewrite (int_digits d rest n H Hn). by rewrite (strip_digits _ H).
  - rewrite Heq. unfold PyStr.int. rewrite (strip_digits_newline ds Hds).
    destruct ds as [|d' ds].
    + injection Heq as -> _. discriminate Hd.
    + destruct (digits_value_total _ 0 Hds) as (n & Hn & _); [lia|].
      exists n. cbn zeta. by rewrite Hn.
Qed.

(** The only failures of [parse_tile] are the format error, the refusal by
    [int] of more digits than its limit, and the range error. *)
Lemma parse_tile_raises (s msg : string) :
  parse_tile s = Raise msg →
  (re_match_tile s = false ∧ msg = "Invalid tile format: " +:+ s)
  ∨ (re_match_tile s = true
     ∧ ∃ l rest,
         s = String l rest
         ∧ PyStr.int_max_str_digits
           < Z.of_nat (String.length (PyStr.strip rest))
         ∧ msg = PyStr.int_limit_error
                   (Z.of_nat (String.length (PyStr.strip rest))))
  ∨ (re_match_tile s = true
     ∧ ∃ l rest n,
         s = String l rest
         ∧ Z.of_nat (String.length (PyStr.strip rest))
           ≤ PyStr.int_max_str_digits
         ∧ msg = "Invalid tile number " +:+ PyStr.str n
                 +:+ " for level " +:+ String l EmptyString).
Proof.
  unfold parse_tile. destruct (re_match_tile s) eqn:Hre; cbn [negb].
  - destruct s as [|l rest]; [discriminate Hre|].
    destruct (int_after_match l rest Hre) as [n ->].
    destruct (Z.ltb_spec PyStr.int_max_str_digits
                (Z.of_nat (String.length (PyStr.strip rest)))) as [Hlong|Hok].
    + intros [= <-]. right; left. split; [done|]. by exists l, rest.
    + destruct rest as [|d rest]; [discriminate Hre|].
      unfold re_match_tile in Hre.
      apply andb_true_iff in Hre as [[Hl _]%andb_true_iff _].
      destruct (is_level_has_max l Hl) as [cap ->].
      destruct (_ || _); [|discriminate].
      intros [= <-]. right; right. split; [done|].
      by exists l, (String d rest), n.
  - intros [= <-]. by left.
Qed.

End NoOtherError.

(** A text with a leading zero parses although it is outside
    [LEVEL[1-9][0-9]*]. *)
Lemma C3_leading_zero_accepted :
  parse_tile "E01" = Ok ("E"%char, 1) ∧ spec_tile_grammar "E01" = false.
Proof. split; reflexivity. Qed.

(** C3, amended.  For every text of characters below U+0100 and without a
    newline, tile parsing depends on the shape [A-E][0-9]+ (leading zeros
    allowed): a text of another shape fails with the format error; a text
    of that shape with more than 4300 digits fails with the error of the
    digit limit of [int]; any other text of that shape, read as level [l]
    and decimal value [n], succeeds with [(l, n)] exactly when [n] is
    between 1 and the capacity of [l], and fails with the distinct range
    error otherwise. *)
Theorem C3_parse_tile_accepts (s : string) :
  PyStr.contains PyStr.newline s = false →
  if loose_tile_shape s then
    ∃ l ds n cap,
      s = String l ds ∧ PyStr.digits_value 0 ds = Some n
      ∧ LEVEL_MAX l = Some cap
      ∧ parse_tile s =
          if PyStr.int_max_str_digits <? Z.of_nat (String.length ds)
          then Raise (PyStr.int_limit_error (Z.of_nat (String.length ds)))
          else if (1 <=? n) && (n <=? cap) then Ok (l, n)
          else Raise ("Invalid tile number " +:+ PyStr.str n
                      +:+ " for level " +:+ String l EmptyString)
  else parse_tile s = Raise ("Invalid tile format: " +:+ s).
Proof.
  intros Hnl. pose proof (re_match_tile_no_newline s Hnl) as Hre.
  destruct (loose_tile_shape s) eqn:Hshape.
  - destruct s as [|l [|d rest]]; try discriminate Hshape.
    unfold loose_tile_shape in Hshape.
    apply andb_true_iff in Hshape as [[Hl Hd]%andb_true_iff Hrest].
    assert (all_digits (String d rest) = true) as Hds
      by (simpl; by rewrite Hd, Hrest).
    destruct (is_level_has_max l Hl) as [cap Hcap].
    destruct (digits_value_total (String d rest) 0 Hds) as (n & Hn & _); [lia|].
    exists l, (String d rest), n, cap. repeat split; [done..|].
    unfold parse_tile. rewrite Hre. cbn [negb].
    rewrite (int_digits d rest n Hds Hn).
    destruct (PyStr.int_max_str_digits
              <? Z.of_nat (String.length (String d rest))); [done|].
    rewrite Hcap. case_Z.
  - unfold parse_tile. by rewrite Hre.
Qed.

Lemma C3_parse_tile_accepts_witness :
  PyStr.contains PyStr.newline "E01" = false
  ∧ if loose_tile_shape "E01" then
      ∃ l ds n cap,
        "E01" = String l ds ∧ PyStr.digits_value 0 ds = Some n
        ∧ LEVEL_MAX l = Some cap
        ∧ parse_tile "E01" =
            if PyStr.int_max_str_digits <? Z.of_nat (String.length ds)
            then Raise (PyStr.int_limit_error (Z.of_nat (String.length ds)))
            else if (1 <=? n) && (n <=? cap) then Ok (l, n)
            else Raise ("Invalid tile number " +:+ PyStr.str n
                        +:+ " for level " +:+ String l EmptyString)
    else parse_tile "E01" = Raise ("Invalid tile format: " +:+ "E01").
Proof.
  split; [reflexivity|].
  apply (C3_parse_tile_accepts "E01"). reflexivity.
Defined.

(** ** The path interpreter *)

Section Messages.

(** No message of the loop is the parse error. *)
Lemma step_not_parse_error (i : Z) (a : Action) (st st' : Interp)
    (msg : string) :
  step i a st = Return st' msg → is_parse_error msg = false.
Proof.
  destruct a as [tile|tile item|target]; simpl;
    unfold step_move, step_collect, step_clear;
    repeat case_match; intros [= <- <-]; reflexivity.
Qed.

Lemma run_not_parse_error (actions : list Action) (i : Z)
    (st st' : Interp) (msg : string) :
  run_actions i actions st = Return st' msg → is_parse_error msg = false.
Proof.
  revert i st. induction actions as [|a rest IH]; intros i st; simpl.
  - discriminate.
  - destruct (step i a st) as [st1|st1 msg1] eqn:Hstep.
    + apply IH.
    + intros [= <- <-]. by eapply step_not_parse_error.
Qed.

Lemma final_checks_not_parse_error (st : Interp) :
  is_parse_error (final_checks st).1.2 = false.
Proof. unfold final_checks. repeat case_match; reflexivity. Qed.

End Messages.

(** A token outside the grammar in third place is replayed as a Move and
    rejected as an illegal transition, after the cost of the second step. *)
Lemma C2_malformed_token_not_parse_error :
  In "Z9" (PyStr.split "|" "E1|D1|Z9")
  ∧ spec_token_grammar "Z9" = false
  ∧ validate_path "E1|D1|Z9" (mkScenario [] [] [] None)
    = (false, "Invalid move from D1 to Z9 at step 3", 2).
Proof.
  split; [simpl; auto|]. split; vm_compute; reflexivity.
Qed.

(** C2, amended.  Path validation reports the parse error exactly when the
    path expression is empty, and then with total cost zero; no token is
    rejected while parsing. *)
Theorem C2_parse_error_only_when_empty (path : string) (cfg : Scenario) :
  validate_path EmptyString cfg = (false, "Path parsing error: Empty path", 0)
  ∧ is_parse_error (validate_path path cfg).1.2 = String.eqb path EmptyString.
Proof.
  split; [reflexivity|]. unfold validate_path, parse_path.
  destruct (String.eqb path EmptyString); [reflexivity|].
  destruct (run_actions _ _ _) as [st|st msg] eqn:Hrun.
  - apply final_checks_not_parse_error.
  - simpl. by eapply run_not_parse_error.
Qed.

(** C4.  The path ["E1|D1|C1|B1|A1"] in a scenario without blocked tiles
    and without collectibles is invalid for want of the key, with a total of
    8 MP: the placement on E1 is free and each of the four moves towards the
    apex costs 2. *)
Theorem C4_apex_without_key (requires : list string) (optimal : option Z) :
  let cfg := mkScenario [] [] requires optimal in
  validate_path "E1|D1|C1|B1|A1" cfg
    = (false, "Must collect key before reaching A1", 8)
  ∧ parse_path "E1|D1|C1|B1|A1"
    = Ok [Move "E1"; Move "D1"; Move "C1"; Move "B1"; Move "A1"]
  ∧ move_charges 0 [Move "E1"; Move "D1"; Move "C1"; Move "B1"; Move "A1"]
      (initial_state cfg) = [0; 2; 2; 2; 2]
  ∧ is_valid (validate_puzzle_solution "E1|D1|C1|B1|A1" cfg) = false
  ∧ verdict_total_mp (validate_puzzle_solution "E1|D1|C1|B1|A1" cfg) = 8.
Proof. repeat split; vm_compute; reflexivity. Qed.

(** C9.  The final verdict is optimal exactly when the path is valid, the
    scenario declares an optimal cost and the total cost equals it; the
    other fields are those of [validate_path] and of the scenario, and no
    input makes the scorer fail. *)
Theorem C9_is_optimal_iff (path : string) (cfg : Scenario) :
  let v := validate_puzzle_solution path cfg in
  (is_valid v, message v, verdict_total_mp v) = validate_path path cfg
  ∧ optimal_mp v = sc_optimal_mp cfg
  ∧ (is_optimal v = true ↔
     is_valid v = true
     ∧ ∃ o, sc_optimal_mp cfg = Some o ∧ verdict_total_mp v = o).
Proof.
  unfold validate_puzzle_solution.
  destruct (validate_path path cfg) as [[valid msg] mp]. simpl.
  split; [done|]. split; [done|].
  destruct valid, (sc_optimal_mp cfg) as [o|]; simpl.
  - rewrite Z.eqb_eq. split.
    + intros ->. eauto.
    + intros (_ & o' & [= <-] & ->). done.
  - split; [done|]. intros (_ & o & [=] & _).
  - split; [done|]. intros [[=] _].
  - split; [done|]. intros [[=] _].
Qed.

Lemma run_two_moves_blocked (t1 t2 : string) (rest : list Action) (n : Z)
    (cfg : Scenario) :
  t1 ∉ sc_blocked cfg → parse_tile t1 = Ok ("E"%char, n) →
  t2 ∈ sc_blocked cfg →
  ∃ st, run_actions 0 (Move t1 :: Move t2 :: rest) (initial_state cfg)
        = Return st ("Cannot move to blocked tile " +:+ t2 +:+ " at step 2")
        ∧ total_mp st = 0.
Proof.
  intros H1 Hp H2. eexists. cbn [run_actions step]. unfold step_move at 1.
  cbn [initial_state game_state new_GameState blocked_tiles current_position].
  rewrite bool_decide_eq_false_2; [|by rewrite elem_of_list_to_set].
  rewrite Hp. cbn [Ascii.eqb Bool.eqb negb]. unfold step_move.
  cbn [initial_state game_state new_GameState blocked_tiles].
  rewrite bool_decide_eq_true_2; [|by rewrite elem_of_list_to_set].
  split; reflexivity.
Qed.

(** C7.  When the first action is a Move to an unblocked E-level tile and
    the second a Move to a tile of the scenario's blocked list, validation
    fails with the blocked-tile message naming that tile and step 2, with
    no cost accrued; whether the transition would have been legal plays no
    part. *)
Theorem C7_second_move_blocked (path t1 t2 : string) (rest : list Action)
    (n : Z) (cfg : Scenario) :
  parse_path path = Ok (Move t1 :: Move t2 :: rest) →
  t1 ∉ sc_blocked cfg →
  parse_tile t1 = Ok ("E"%char, n) →
  t2 ∈ sc_blocked cfg →
  validate_path path cfg
  = (false, "Cannot move to blocked tile " +:+ t2 +:+ " at step 2", 0).
Proof.
  intros Hpath H1 Hp H2. unfold validate_path. rewrite Hpath.
  destruct (run_two_moves_blocked t1 t2 rest n cfg H1 Hp H2) as (st & -> & ->).
  reflexivity.
Qed.

Lemma C7_second_move_blocked_witness :
  parse_path "E1|C5" = Ok [Move "E1"; Move "C5"]
  ∧ is_valid_move "E1" "C5" = (false, "invalid_move", 0)
  ∧ validate_path "E1|C5" (mkScenario ["C5"] [] [] None)
    = (false, "Cannot move to blocked tile C5 at step 2", 0).
Proof.
  split; [reflexivity|]. split; [reflexivity|].
  apply (C7_second_move_blocked "E1|C5" "E1" "C5" [] 1
           (mkScenario ["C5"] [] [] None)).
  - reflexivity.
  - simpl. compute_done.
  - reflexivity.
  - simpl. compute_done.
Defined.

(** ** Cost accounting *)

Section Accounting.

Lemma step_collect_total (tile item : string) (st : Interp) :
  total_mp (outcome_state (step_collect tile item st)) = total_mp st.
Proof. unfold step_collect. repeat case_match; reflexivity. Qed.

Lemma step_clear_total (target : string) (st : Interp) :
  total_mp (outcome_state (step_clear target st)) = total_mp st.
Proof. unfold step_clear. repeat case_match; reflexivity. Qed.

Lemma step_move_total (i : Z) (tile : string) (st : Interp) :
  total_mp (outcome_state (step_move i tile st)) =
    match step_move i tile st with
    | Continue _ => total_mp st + move_charge tile st
    | Return _ _ => total_mp st
    end.
Proof.
  unfold step_move, move_charge.
  destruct (bool_decide _); [reflexivity|].
  destruct (current_position st) as [current|].
  - destruct (is_valid_move current tile) as [[valid move_type] base].
    destruct valid; reflexivity.
  - destruct (parse_tile tile) as [[level number]|]; [|reflexivity].
    destruct (Ascii.eqb level "E"); simpl; [lia|reflexivity].
Qed.

Lemma run_total (actions : list Action) (i : Z) (st : Interp) :
  total_mp (outcome_state (run_actions i actions st))
  = total_mp st + sum_Z (move_charges i actions st).
Proof.
  revert i st. induction actions as [|a rest IH]; intros i st.
  - simpl. lia.
  - cbn [run_actions move_charges].
    destruct a as [tile|tile item|target]; cbn [step].
    + pose proof (step_move_total i tile st) as H.
      destruct (step_move i tile st) as [st'|st' msg]; simpl in *.
      * rewrite IH, H. unfold sum_Z. lia.
      * rewrite H. lia.
    + pose proof (step_collect_total tile item st) as H.
      destruct (step_collect tile item st) as [st'|st' msg]; simpl in *.
      * rewrite IH, H. reflexivity.
      * rewrite H. lia.
    + pose proof (step_clear_total target st) as H.
      destruct (step_clear target st) as [st'|st' msg]; simpl in *.
      * rewrite IH, H. reflexivity.
      * rewrite H. lia.
Qed.

Lemma final_checks_total (st : Interp) : (final_checks st).2 = total_mp st.
Proof. unfold final_checks. repeat case_match; reflexivity. Qed.

End Accounting.

(** C10.  A Collect or a Clear action leaves [total_mp] as it was, whether
    it succeeds or fails, and the total reported by an evaluation is the sum
    of what its Move transitions were charged. *)
Theorem C10_only_moves_cost (path : string) (cfg : Scenario) (i : Z)
    (st : Interp) :
  (∀ tile item,
      total_mp (outcome_state (step i (Collect tile item) st)) = total_mp st)
  ∧ (∀ target,
      total_mp (outcome_state (step i (Clear target) st)) = total_mp st)
  ∧ (validate_path path cfg).2 =
      match parse_path path with
      | Ok actions => sum_Z (move_charges 0 actions (initial_state cfg))
      | Raise _ => 0
      end.
Proof.
  split; [intros; apply step_collect_total|].
  split; [intros; apply step_clear_total|].
  unfold validate_path. destruct (parse_path path) as [actions|e]; [|done].
  pose proof (run_total actions 0 (initial_state cfg)) as H.
  destruct (run_actions 0 actions (initial_state cfg)) as [st'|st' msg];
    simpl in H.
  - rewrite final_checks_total. lia.
  - simpl. lia.
Qed.

(** ** Items *)

Section Items.

Lemma collect_scan_result (items : list (string * string)) (tile : string)
    (gs : GameState) :
  collect_scan items tile gs = (None, gs)
  ∨ ∃ item_type,
      collect_scan items tile gs
      = (Some item_type, mark_collected item_type gs).
Proof.
  induction items as [|[item_type location] rest IH]; simpl; [by left|].
  destruct (_ && _); [right; by exists item_type|exact IH].
Qed.

Lemma has_key_mark_collected (item : string) (gs : GameState) :
  has_key (mark_collected item gs)
  = has_key gs || bool_decide (item = "key").
Proof.
  unfold mark_collected. cbn [has_key].
  destruct (decide (item = "key")) as [->|Hne].
  - cbn. by rewrite orb_true_r.
  - rewrite (bool_decide_eq_false_2 _ Hne), andb_false_r, orb_false_r. done.
Qed.

Lemma step_has_key (i : Z) (a : Action) (st st' : Interp) :
  step i a st = Continue st' →
  has_key (game_state st')
  = has_key (game_state st) || is_key_collect a.
Proof.
  destruct a as [tile|tile item|target]; cbn [step is_key_collect].
  - unfold step_move. repeat case_match; intros [= <-];
      cbn [game_state]; by rewrite orb_false_r.
  - unfold step_collect, collect_item.
    destruct (negb _); [discriminate|].
    destruct (collect_scan_result (collectibles (game_state st)) tile
                (game_state st)) as [->|[it ->]].
    + cbn. discriminate.
    + destruct (decide (Some it = Some item)) as [[= ->]|Hne].
      * rewrite bool_decide_eq_true_2 by done. intros [= <-].
        cbn [game_state negb]. apply has_key_mark_collected.
      * rewrite bool_decide_eq_false_2 by done. discriminate.
  - unfold step_clear, use_dynamite. repeat case_match; simplify_eq;
      intros [= <-]; cbn [game_state has_key]; by rewrite orb_false_r.
Qed.

Lemma run_has_key (actions : list Action) (i : Z) (st st' : Interp) :
  run_actions i actions st = Continue st' →
  has_key (game_state st')
  = has_key (game_state st) || collects_key actions.
Proof.
  revert i st. induction actions as [|a rest IH]; intros i st; simpl.
  - intros [= <-]. by rewrite orb_false_r.
  - destruct (step i a st) as [st1|st1 msg] eqn:Hstep; [|discriminate].
    intros Hrun. rewrite (IH _ _ Hrun), (step_has_key _ _ _ _ Hstep).
    by rewrite orb_assoc.
Qed.

End Items.

(** C5.  When every action of the path succeeds and the path ends on A1,
    the verdict is valid if the path has a Collect action for the item
    ["key"] and is the missing-key failure otherwise; the [requires] list of
    the scenario plays no part in the verdict. *)
Theorem C5_key_always_required (path : string) (cfg : Scenario)
    (actions : list Action) (st : Interp) :
  parse_path path = Ok actions →
  run_actions 0 actions (initial_state cfg) = Continue st →
  current_position st = Some "A1" →
  validate_path path cfg =
    (if collects_key actions then (true, "Path is valid", total_mp st)
     else (false, "Must collect key before reaching A1", total_mp st))
  ∧ ∀ requires' : list string,
      validate_path path
        (mkScenario (sc_blocked cfg) (sc_collectibles cfg) requires'
           (sc_optimal_mp cfg))
      = validate_path path cfg.
Proof.
  intros Hpath Hrun Hpos. split; [|reflexivity].
  unfold validate_path. rewrite Hpath, Hrun. unfold final_checks.
  rewrite Hpos, bool_decide_eq_true_2 by done. cbn [negb].
  rewrite (run_has_key _ _ _ _ Hrun). cbn.
  destruct (collects_key actions); reflexivity.
Qed.

Lemma C5_key_always_required_witness :
  let cfg := mkScenario [] [] [] None in
  parse_path "E1|D1|C1|B1|A1"
  = Ok [Move "E1"; Move "D1"; Move "C1"; Move "B1"; Move "A1"]
  ∧ validate_path "E1|D1|C1|B1|A1" cfg
    = (false, "Must collect key before reaching A1", 8).
Proof.
  intros cfg. split; [reflexivity|].
  apply (C5_key_always_required "E1|D1|C1|B1|A1" cfg
           [Move "E1"; Move "D1"; Move "C1"; Move "B1"; Move "A1"]
           (outcome_state
              (run_actions 0
                 [Move "E1"; Move "D1"; Move "C1"; Move "B1"; Move "A1"]
                 (initial_state cfg)))).
  - reflexivity.
  - vm_compute. reflexivity.
  - vm_compute. reflexivity.
Defined.

(** ** Clearing *)

Section Clearing.

Variable init : gset string.

Lemma clear_inv_mark_collected (item : string) (gs : GameState) :
  clear_inv init gs → clear_inv init (mark_collected item gs).
Proof.
  unfold clear_inv, mark_collected. cbn. intros [H1 H2]. split; [|done].
  intros H. apply elem_of_union_r. auto.
Qed.

Lemma clear_inv_collect_item (tile : string) (gs : GameState) :
  clear_inv init gs → clear_inv init (collect_item tile gs).2.
Proof.
  intros H. unfold collect_item.
  destruct (collect_scan_result (collectibles gs) tile gs) as [->|[it ->]];
    [done|]. by apply clear_inv_mark_collected.
Qed.

Lemma clear_inv_use_dynamite (target : string) (gs : GameState) :
  clear_inv init gs → clear_inv init (use_dynamite target gs).2.
Proof.
  intros H. unfold use_dynamite.
  destruct (bool_decide ("dynamite" ∈ collected_items gs)) eqn:Hd;
    [|exact H].
  destruct (negb (dynamite_used gs)) eqn:Hused; [|exact H]. cbn [andb].
  destruct (bool_decide (target ∈ blocked_tiles gs)); [|exact H].
  destruct H as [_ H2]. apply negb_true_iff in Hused.
  rewrite Hused in H2. split; cbn.
  - intros _. by apply bool_decide_eq_true in Hd.
  - exists target. by rewrite H2.
Qed.

Lemma clear_inv_step (i : Z) (a : Action) (st : Interp) :
  clear_inv init (game_state st) →
  clear_inv init (game_state (outcome_state (step i a st))).
Proof.
  intros H. destruct a as [tile|tile item|target]; cbn [step].
  - unfold step_move. repeat case_match; exact H.
  - unfold step_collect. destruct (negb _); [exact H|].
    pose proof (clear_inv_collect_item tile _ H) as H'.
    destruct (collect_item tile (game_state st)) as [r gs].
    destruct (negb _); exact H'.
  - unfold step_clear.
    pose proof (clear_inv_use_dynamite target _ H) as H'.
    destruct (use_dynamite target (game_state st)) as [ok gs].
    repeat case_match; exact H'.
Qed.

Lemma clear_inv_run (actions : list Action) (i : Z) (st : Interp) :
  clear_inv init (game_state st) →
  clear_inv init (game_state (outcome_state (run_actions i actions st))).
Proof.
  revert i st. induction actions as [|a rest IH]; intros i st H; [exact H|].
  simpl. pose proof (clear_inv_step i a st H) as H'.
  destruct (step i a st) as [st'|st' msg]; [by apply IH|exact H'].
Qed.

(** At most one tile is missing from the blocked set. *)
Lemma clear_inv_blocked (gs : GameState) :
  clear_inv init gs →
  blocked_tiles gs ⊆ init ∧ (size (init ∖ blocked_tiles gs) ≤ 1)%nat.
Proof.
  intros [_ Hb]. destruct (dynamite_used gs).
  - destruct Hb as [t Ht]. rewrite Ht. split.
    { intros x [Hx _]%elem_of_difference. exact Hx. }
    rewrite <- (size_singleton (C:=gset string) t).
    apply subseteq_size. intros x.
    rewrite !elem_of_difference, elem_of_singleton.
    intros [Hx Hn]. destruct (decide (x = t)); [done|].
    exfalso. apply Hn. done.
  - rewrite Hb. split; [done|].
    rewrite difference_diag_L, size_empty. lia.
Qed.

End Clearing.

Lemma clear_inv_initial (cfg : Scenario) :
  clear_inv (list_to_set (sc_blocked cfg)) (game_state (initial_state cfg)).
Proof. split; [discriminate|reflexivity]. Qed.

Section ClearOnce.

Lemma run_actions_app (l1 l2 : list Action) (i : Z) (st : Interp) :
  run_actions i (l1 ++ l2) st =
    match run_actions i l1 st with
    | Continue st' => run_actions (i + Z.of_nat (length l1)) l2 st'
    | Return st' msg => Return st' msg
    end.
Proof.
  revert i st. induction l1 as [|a l1 IH]; intros i st.
  - simpl. by rewrite Z.add_0_r.
  - cbn [app run_actions length].
    destruct (step i a st) as [st'|st' msg]; [|done].
    rewrite IH. by replace (i + 1 + Z.of_nat (length l1))
      with (i + Z.of_nat (S (length l1))) by lia.
Qed.

Lemma dynamite_used_mark_collected (item : string) (gs : GameState) :
  dynamite_used (mark_collected item gs) = dynamite_used gs.
Proof. reflexivity. Qed.

(** Once used, the dynamite stays used. *)
Lemma step_keeps_used (i : Z) (a : Action) (st st' : Interp) :
  step i a st = Continue st' →
  dynamite_used (game_state st) = true →
  dynamite_used (game_state st') = true.
Proof.
  destruct a as [tile|tile item|target]; cbn [step].
  - unfold step_move. repeat case_match; intros [= <-]; done.
  - unfold step_collect, collect_item. destruct (negb _); [discriminate|].
    destruct (collect_scan_result (collectibles (game_state st)) tile
                (game_state st)) as [->|[it ->]];
      destruct (negb _); intros [= <-]; done.
  - unfold step_clear, use_dynamite. intros H Hused. revert H.
    rewrite Hused, andb_false_r. cbn. repeat case_match; discriminate.
Qed.

Lemma run_keeps_used (actions : list Action) (i : Z) (st st' : Interp) :
  run_actions i actions st = Continue st' →
  dynamite_used (game_state st) = true →
  dynamite_used (game_state st') = true.
Proof.
  revert i st. induction actions as [|a rest IH]; intros i st; simpl.
  - by intros [= <-].
  - destruct (step i a st) as [st1|st1 msg] eqn:Hstep; [|discriminate].
    intros Hrun Hused. eapply IH; [exact Hrun|].
    by eapply step_keeps_used.
Qed.

(** A Clear that succeeds marks the dynamite used. *)
Lemma clear_marks_used (i : Z) (target : string) (st st' : Interp) :
  step i (Clear target) st = Continue st' →
  dynamite_used (game_state st') = true.
Proof.
  cbn [step]. unfold step_clear, use_dynamite.
  repeat case_match; simplify_eq; intros [= <-]; reflexivity.
Qed.

(** With the dynamite used, a Clear fails as already used, whatever its
    target. *)
Lemma clear_after_use (init : gset string) (i : Z) (target : string)
    (st : Interp) :
  clear_inv init (game_state st) →
  dynamite_used (game_state st) = true →
  step i (Clear target) st
  = Return st ("Cannot clear " +:+ target +:+ " - dynamite already used").
Proof.
  intros [Hd _] Hused. specialize (Hd Hused).
  cbn [step]. unfold step_clear, use_dynamite.
  rewrite Hused, andb_false_r. cbn [negb].
  rewrite (bool_decide_eq_true_2 _ Hd), Hused. cbn [negb].
  by destruct st.
Qed.

Lemma run_through_clear (pre mid : list Action) (target : string) (i : Z)
    (st0 st : Interp) :
  run_actions i (pre ++ Clear target :: mid) st0 = Continue st →
  dynamite_used (game_state st) = true.
Proof.
  rewrite run_actions_app.
  destruct (run_actions i pre st0) as [st1|st1 msg]; [|discriminate].
  cbn [run_actions].
  destruct (step _ (Clear target) st1) as [st2|st2 msg] eqn:Hstep;
    [|discriminate].
  intros Hrun. eapply run_keeps_used; [exact Hrun|].
  by eapply clear_marks_used.
Qed.

End ClearOnce.

(** C8.  In an evaluation where a Clear has succeeded, a later Clear that
    the evaluation reaches fails with the "dynamite already used" message,
    whatever its target and whether or not that target is blocked; and at
    every point of every evaluation the blocked set is within the
    scenario's and misses at most one of its tiles. *)
Theorem C8_clear_is_single_use (path : string) (cfg : Scenario)
    (pre mid rest : list Action) (t1 t2 : string) (st : Interp) :
  parse_path path = Ok (pre ++ Clear t1 :: mid ++ Clear t2 :: rest) →
  run_actions 0 (pre ++ Clear t1 :: mid) (initial_state cfg) = Continue st →
  validate_path path cfg
  = (false, "Cannot clear " +:+ t2 +:+ " - dynamite already used",
     total_mp st)
  ∧ ∀ (actions : list Action),
      let final :=
        game_state (outcome_state (run_actions 0 actions (initial_state cfg)))
      in
      blocked_tiles final ⊆ list_to_set (sc_blocked cfg)
      ∧ (size (list_to_set (sc_blocked cfg) ∖ blocked_tiles final) ≤ 1)%nat.
Proof.
  intros Hpath Hrun. set (init := list_to_set (sc_blocked cfg) : gset string).
  split.
  - unfold validate_path. rewrite Hpath.
    replace (pre ++ Clear t1 :: mid ++ Clear t2 :: rest)
      with ((pre ++ Clear t1 :: mid) ++ Clear t2 :: rest)
      by (by rewrite <- app_assoc).
    rewrite run_actions_app, Hrun. cbn [run_actions].
    rewrite (clear_after_use init); [reflexivity| |].
    + pose proof (clear_inv_run init (pre ++ Clear t1 :: mid) 0
                    (initial_state cfg) (clear_inv_initial cfg)) as H.
      by rewrite Hrun in H.
    + by eapply run_through_clear.
  - intros actions final. apply clear_inv_blocked.
    apply clear_inv_run, clear_inv_initial.
Qed.

Lemma C8_clear_is_single_use_witness :
  let cfg := mkScenario ["D1"; "C2"] [("dynamite", "E2")] [] None in
  let path := "E1|E2|E2:dynamite|clear:D1|D1|clear:C2|C1" in
  parse_path path
  = Ok ([Move "E1"; Move "E2"; Collect "E2" "dynamite"]
        ++ Clear "D1" :: [Move "D1"] ++ Clear "C2" :: [Move "C1"])
  ∧ validate_path path cfg
    = (false, "Cannot clear C2 - dynamite already used", 3).
Proof.
  intros cfg path. split; [reflexivity|].
  apply (C8_clear_is_single_use path cfg
           [Move "E1"; Move "E2"; Collect "E2" "dynamite"] [Move "D1"]
           [Move "C1"] "D1" "C2"
           (outcome_state
              (run_actions 0
                 ([Move "E1"; Move "E2"; Collect "E2" "dynamite"]
                  ++ Clear "D1" :: [Move "D1"])
                 (initial_state cfg)))).
  - reflexivity.
  - vm_compute. reflexivity.
Defined.

(** ** Sample evaluations *)

(** The pattern's [$] lets one final newline through, and [int] drops it. *)
Example parse_tile_final_newline :
  parse_tile (String "E" (String "7" (String PyStr.newline EmptyString)))
  = Ok ("E"%char, 7).
Proof. reflexivity. Qed.

(** Collecting the key on the way costs nothing: the path is valid with the
    same total as the bare climb. *)
Example climb_with_key :
  validate_puzzle_solution "E1|D1|D1:key|C1|B1|A1"
    (mkScenario [] [("key", "D1")] ["key"] (Some 8))
  = {| is_valid := true; message := "Path is valid"; verdict_total_mp := 8;
       optimal_mp := Some 8; is_optimal := true |}.
Proof. vm_compute. reflexivity. Qed.

(** With the ladder picked up on the base ring every move towards the apex
    costs 1. *)
Example climb_with_ladder :
  validate_path "E1|E2|E2:ladder|D1|D1:key|C1|B1|A1"
    (mkScenario [] [("key", "D1"); ("ladder", "E2")] ["key"] None)
  = (true, "Path is valid", 5).
Proof. vm_compute. reflexivity. Qed.

(** The three causes of a refused Clear. *)
Example clear_refusals :
  let cfg := mkScenario ["D2"] [("dynamite", "E1")] [] None in
  validate_path "E1|clear:D2" cfg
  = (false, "Cannot clear D2 - no dynamite collected", 0)
  ∧ validate_path "E1|E1:dynamite|clear:D1" cfg
    = (false, "Cannot clear D1 - tile not blocked", 0)
  ∧ validate_path "E1|E1:dynamite|clear:D2|clear:D2" cfg
    = (false, "Cannot clear D2 - dynamite already used", 0).
Proof. repeat split; vm_compute; reflexivity. Qed.

(** * Further properties of the validator *)

(** ** Tiles *)

Section TileTexts.

Lemma Forall_seqZ (P : Z → Prop) (lo len : Z) :
  Forall P (seqZ lo len) → ∀ n, lo ≤ n < lo + len → P n.
Proof.
  intros H n Hn. rewrite Forall_forall in H. apply H.
  apply elem_of_seqZ. lia.
Qed.

Lemma tile_text_parses_upto_32 (l : ascii) (cap : Z) :
  LEVEL_MAX l = Some cap →
  Forall (λ n, n ≤ cap → parse_tile (tile_text l n) = Ok (l, n)) (seqZ 1 32).
Proof.
  intros H.
  destruct (level_max_cases l cap H)
    as [[-> ->]|[[-> ->]|[[-> ->]|[[-> ->]|[-> ->]]]]].
  all: let l := eval vm_compute in (seqZ 1 32) in change (seqZ 1 32) with l.
  all: repeat (constructor;
               [intros Hle; first [vm_compute; reflexivity | exfalso; lia]|]).
  all: constructor.
Qed.

End TileTexts.

(** Writing a tile as its level letter followed by its number and parsing
    the text gives the tile back. *)
Theorem parse_tile_tile_text (l : ascii) (n cap : Z) :
  LEVEL_MAX l = Some cap → 1 ≤ n ≤ cap →
  parse_tile (tile_text l n) = Ok (l, n).
Proof.
  intros Hl Hn.
  assert (cap ≤ 32) as Hcap
    by (destruct (level_max_cases l cap Hl)
          as [[_ ->]|[[_ ->]|[[_ ->]|[[_ ->]|[_ ->]]]]]; lia).
  apply (Forall_seqZ _ 1 32 (tile_text_parses_upto_32 l cap Hl) n); lia.
Qed.

Lemma parse_tile_tile_text_witness :
  parse_tile (tile_text "D" 16) = Ok ("D"%char, 16).
Proof.
  apply (parse_tile_tile_text "D" 16 16); [reflexivity | lia].
Defined.

(** ** Legal moves *)

Section LegalMoves.

Lemma half_up_iff (n t : Z) : t = (n + 1) / 2 ↔ 2 * t - 1 ≤ n ≤ 2 * t.
Proof. Z.div_mod_to_equations. lia. Qed.

Lemma ord_inj (c d : ascii) : PyStr.ord c = PyStr.ord d → c = d.
Proof.
  unfold PyStr.ord. intros H%(inj Z.of_N).
  rewrite <- (ascii_N_embedding c), <- (ascii_N_embedding d). by rewrite H.
Qed.

Lemma rule_same_level_Some (ls lt : ascii) (ns nt : Z) (r : MoveResult) :
  rule_same_level ls lt ns nt = Some r →
  ls = lt ∧ (r = (true, "clockwise", 1) ∨ r = (true, "counter_clockwise", 1)).
Proof.
  unfold rule_same_level.
  destruct (Ascii.eqb_spec ls lt) as [->|]; [|discriminate].
  repeat case_match; intros [= <-]; auto.
Qed.

Lemma rule_inward_Some (ls lt : ascii) (ns nt : Z) (r : MoveResult) :
  rule_inward ls lt ns nt = Some r →
  PyStr.ord lt = PyStr.ord ls - 1 ∧ nt = (ns + 1) / 2
  ∧ r = (true, "inward", 2).
Proof.
  unfold rule_inward.
  destruct (Z.eqb_spec (PyStr.ord lt) (PyStr.ord ls - 1)); [|discriminate].
  destruct (Z.eqb_spec nt ((ns + 1) / 2)); [|discriminate].
  intros [= <-]. auto.
Qed.

Lemma rule_outward_Some (ls lt : ascii) (ns nt : Z) (r : MoveResult) :
  rule_outward ls lt ns nt = Some r →
  PyStr.ord lt = PyStr.ord ls + 1
  ∧ ((nt = 2 * ns - 1 ∧ r = (true, "outward_left", 1))
     ∨ (nt = 2 * ns ∧ r = (true, "outward_right", 1))).
Proof.
  unfold rule_outward.
  destruct (Z.eqb_spec (PyStr.ord lt) (PyStr.ord ls + 1)); [|discriminate].
  destruct (Z.eqb_spec nt (2 * ns - 1)); [intros [= <-]; auto|].
  destruct (Z.eqb_spec nt (2 * ns)); [intros [= <-]; auto|discriminate].
Qed.

Lemma rule_from_peak_Some (s : string) (lt : ascii) (r : MoveResult) :
  rule_from_peak s lt = Some r →
  s = "A1" ∧ lt = "B"%char ∧ r = (true, "outward_from_peak", 1).
Proof.
  unfold rule_from_peak.
  destruct (String.eqb_spec s "A1") as [->|]; [|discriminate].
  destruct (Ascii.eqb_spec lt "B") as [->|]; [|discriminate].
  intros [= <-]. auto.
Qed.

Lemma rule_to_peak_Some (ls : ascii) (t : string) (r : MoveResult) :
  rule_to_peak ls t = Some r →
  ls = "B"%char ∧ t = "A1" ∧ r = (true, "inward_to_peak", 2).
Proof.
  unfold rule_to_peak.
  destruct (Ascii.eqb_spec ls "B") as [->|]; [|discriminate].
  destruct (String.eqb_spec t "A1") as [->|]; [|discriminate].
  intros [= <-]. auto.
Qed.

(** The classification of a pair of parsed tiles, by level distance. *)
Lemma legal_move_cases (s t : string) (ls lt : ascii) (ns nt : Z)
    (mt : string) (c : Z) :
  parse_tile s = Ok (ls, ns) → parse_tile t = Ok (lt, nt) →
  is_valid_move s t = (true, mt, c) →
  (lt = ls ∧ c = 1 ∧ (mt = "clockwise" ∨ mt = "counter_clockwise"))
  ∨ (PyStr.ord lt = PyStr.ord ls - 1 ∧ c = 2
     ∧ (mt = "inward" ∨ mt = "inward_to_peak"))
  ∨ (PyStr.ord lt = PyStr.ord ls + 1 ∧ c = 1
     ∧ (mt = "outward_left" ∨ mt = "outward_right"
        ∨ mt = "outward_from_peak")).
Proof.
  intros Hs Ht. unfold is_valid_move. rewrite Hs, Ht. unfold or_else.
  destruct (rule_same_level _ _ _ _) as [r|] eqn:H1.
  { apply rule_same_level_Some in H1 as [-> [->| ->]];
      intros [= <- <-]; left; auto. }
  destruct (rule_inward _ _ _ _) as [r|] eqn:H2.
  { apply rule_inward_Some in H2 as (Hl & _ & ->).
    intros [= <- <-]. right; left. auto. }
  destruct (rule_outward _ _ _ _) as [r|] eqn:H3.
  { apply rule_outward_Some in H3 as (Hl & [[_ ->]|[_ ->]]);
      intros [= <- <-]; right; right; auto. }
  destruct (rule_from_peak _ _) as [r|] eqn:H4.
  { apply rule_from_peak_Some in H4 as (-> & -> & ->).
    injection Hs as <- _. intros [= <- <-]. right; right. auto 6. }
  destruct (rule_to_peak _ _) as [r|] eqn:H5.
  { apply rule_to_peak_Some in H5 as (-> & -> & ->).
    injection Ht as <- _. intros [= <- <-]. right; left. auto. }
  discriminate.
Qed.

End LegalMoves.

Section Legality.



(** Turn the outcome of the boolean tests in the context into facts. *)
Ltac bool_facts :=
  repeat match goal with
    | H : (_ && _) = true |- _ => apply andb_true_iff in H as [? ?]
    | H : (_ || _) = false |- _ => apply orb_false_iff in H as [? ?]
    | H : (_ || _) = true |- _ => apply orb_true_iff in H as [?|?]
    | H : (_ && _) = false |- _ => apply andb_false_iff in H as [?|?]
    | H : (_ =? _)%Z = true |- _ => apply Z.eqb_eq in H
    | H : (_ =? _)%Z = false |- _ => apply Z.eqb_neq in H
    | H : (_ <? _)%Z = true |- _ => apply Z.ltb_lt in H
    | H : (_ <? _)%Z = false |- _ => apply Z.ltb_ge in H
    | H : Ascii.eqb _ _ = true |- _ => apply Ascii.eqb_eq in H
    | H : Ascii.eqb _ _ = false |- _ => apply Ascii.eqb_neq in H
    | H : String.eqb _ _ = true |- _ => apply String.eqb_eq in H
    | H : String.eqb _ _ = false |- _ => apply String.eqb_neq in H
    end.

(** A pair of parsed tiles is a legal move exactly when it satisfies one of
    the five rules. *)
Lemma is_valid_move_true_iff (s t : string) (ls lt : ascii) (ns nt cap : Z) :
  parse_tile s = Ok (ls, ns) → parse_tile t = Ok (lt, nt) →
  LEVEL_MAX ls = Some cap →
  (is_valid_move s t).1.1 = true ↔
    (ls = lt
     ∧ ((ns < cap ∧ nt = ns + 1) ∨ (ns = cap ∧ nt = 1)
        ∨ (1 < ns ∧ nt = ns - 1) ∨ (ns = 1 ∧ nt = cap)))
    ∨ (PyStr.ord lt = PyStr.ord ls - 1 ∧ nt = (ns + 1) / 2)
    ∨ (PyStr.ord lt = PyStr.ord ls + 1 ∧ (nt = 2 * ns - 1 ∨ nt = 2 * ns))
    ∨ (s = "A1" ∧ lt = "B"%char)
    ∨ (ls = "B"%char ∧ t = "A1").
Proof.
  intros Hs Ht Hcap. unfold is_valid_move. rewrite Hs, Ht.
  unfold or_else, rule_same_level, rule_inward, rule_outward,
    rule_from_peak, rule_to_peak. rewrite Hcap. cbn [default].
  unfold id.
  repeat case_match; simplify_eq; cbn [fst snd]; bool_facts; subst.
  all: split; [try discriminate; intros _|try reflexivity].
  all: try (intros [[? ?]|[[? ?]|[[? ?]|[[? ?]|[? ?]]]]]; exfalso;
            first [lia | congruence]).
  all: first [ left; split; [reflexivity|lia]
             | right; left; split; [assumption|lia]
             | right; right; left; split; [assumption|lia]
             | do 3 right; left; split; reflexivity
             | do 4 right; split; reflexivity ].
Qed.

End Legality.

Section Symmetry.



Lemma parsed_A1 (s : string) (l : ascii) (n : Z) :
  s = "A1" → parse_tile s = Ok (l, n) → l = "A"%char ∧ n = 1.
Proof. intros -> [= <- <-]. done. Qed.

Lemma legal_rules_symmetric (s t : string) (ls lt : ascii)
    (ns nt cs ct : Z) :
  parse_tile s = Ok (ls, ns) → parse_tile t = Ok (lt, nt) →
  LEVEL_MAX ls = Some cs → LEVEL_MAX lt = Some ct →
  (is_valid_move s t).1.1 = true → (is_valid_move t s).1.1 = true.
Proof.
  intros Hs Ht Hcs Hct.
  rewrite (is_valid_move_true_iff s t ls lt ns nt cs Hs Ht Hcs).
  rewrite (is_valid_move_true_iff t s lt ls nt ns ct Ht Hs Hct).
  destruct (parse_tile_Ok_inv _ _ _ Hs) as (rs & ms & _ & Hms & Hns).
  destruct (parse_tile_Ok_inv _ _ _ Ht) as (rt & mt & _ & Hmt & Hnt).
  simplify_eq.
  intros [[<- Hrot]|[[Hl Hn]|[[Hl Hn]|[[Hp Hl]|[Hl Hp]]]]].
  - left. split; [done|]. simplify_eq. lia.
  - right; right; left. split; [lia|]. apply half_up_iff in Hn. lia.
  - right; left. split; [lia|]. apply half_up_iff. lia.
  - do 4 right. done.
  - do 3 right. left. done.
Qed.

End Symmetry.

(** Legality is symmetric: a move is legal exactly when the move back is. *)
Theorem is_valid_move_symmetric (s t : string) :
  (is_valid_move s t).1.1 = (is_valid_move t s).1.1.
Proof.
  destruct (parse_tile s) as [[ls ns]|es] eqn:Hs;
    destruct (parse_tile t) as [[lt nt]|et] eqn:Ht.
  2-4: unfold is_valid_move; rewrite Hs, Ht; reflexivity.
  destruct (parse_tile_Ok_inv _ _ _ Hs) as (rs & cs & _ & Hcs & _).
  destruct (parse_tile_Ok_inv _ _ _ Ht) as (rt & ct & _ & Hct & _).
  apply eq_true_iff_eq. split.
  - by apply (legal_rules_symmetric s t ls lt ns nt cs ct).
  - by apply (legal_rules_symmetric t s lt ls nt ns ct cs).
Qed.

Lemma is_valid_move_parsed (s t : string) (mt : string) (c : Z) :
  is_valid_move s t = (true, mt, c) →
  ∃ ls ns lt nt, parse_tile s = Ok (ls, ns) ∧ parse_tile t = Ok (lt, nt).
Proof.
  unfold is_valid_move.
  destruct (parse_tile s) as [[ls ns]|]; [|discriminate].
  destruct (parse_tile t) as [[lt nt]|]; [|discriminate].
  intros _. by exists ls, ns, lt, nt.
Qed.

Lemma cost_of_legal_move (s t mt : string) (c : Z) (ladder : bool) :
  is_valid_move s t = (true, mt, c) →
  (c = 1 ∨ c = 2)
  ∧ calculate_mp_cost mt ladder = (if ladder then 1 else c).
Proof.
  intros H. destruct (is_valid_move_parsed s t mt c H)
    as (ls & ns & lt & nt & Hs & Ht).
  destruct (legal_move_cases s t ls lt ns nt mt c Hs Ht H)
    as [(_ & -> & [->| ->])|[(_ & -> & [->| ->])
       |(_ & -> & [->|[->| ->]])]];
    destruct ladder; split; auto; reflexivity.
Qed.

(** A legal move joins two tiles of the same level or of neighbouring
    levels; its base cost is 2 when it goes one level towards the apex and 1
    otherwise, and the cost charged for its move type is that base cost
    without the ladder and 1 with it. *)
Theorem legal_move_levels_and_cost (s t mt : string) (c : Z) :
  is_valid_move s t = (true, mt, c) →
  ∃ ls ns lt nt,
    parse_tile s = Ok (ls, ns) ∧ parse_tile t = Ok (lt, nt)
    ∧ ((PyStr.ord lt = PyStr.ord ls - 1 ∧ c = 2)
       ∨ ((PyStr.ord lt = PyStr.ord ls ∨ PyStr.ord lt = PyStr.ord ls + 1)
          ∧ c = 1))
    ∧ ∀ ladder : bool,
        calculate_mp_cost mt ladder = if ladder then 1 else c.
Proof.
  intros H. destruct (is_valid_move_parsed s t mt c H)
    as (ls & ns & lt & nt & Hs & Ht).
  exists ls, ns, lt, nt. split; [done|]. split; [done|]. split.
  - destruct (legal_move_cases s t ls lt ns nt mt c Hs Ht H)
      as [(-> & -> & _)|[(Hl & -> & _)|(Hl & -> & _)]]; auto.
  - intros ladder. by apply (cost_of_legal_move s t).
Qed.

Lemma legal_move_levels_and_cost_witness :
  is_valid_move "E5" "D3" = (true, "inward", 2)
  ∧ ∃ ls ns lt nt,
      parse_tile "E5" = Ok (ls, ns) ∧ parse_tile "D3" = Ok (lt, nt)
      ∧ ((PyStr.ord lt = PyStr.ord ls - 1 ∧ 2 = 2)
         ∨ ((PyStr.ord lt = PyStr.ord ls ∨ PyStr.ord lt = PyStr.ord ls + 1)
            ∧ 2 = 1))
      ∧ ∀ ladder : bool,
          calculate_mp_cost "inward" ladder = if ladder then 1 else 2.
Proof.
  split; [reflexivity|].
  apply (legal_move_levels_and_cost "E5" "D3" "inward" 2). reflexivity.
Defined.

Section CostTable.

Lemma base_cost_cases (move_type : string) :
  base_costs !! move_type = None
  ∨ base_costs !! move_type = Some 1
  ∨ (base_costs !! move_type = Some 2
     ∧ (move_type = "inward" ∨ move_type = "inward_to_peak")).
Proof.
  unfold base_costs. cbn [list_to_map foldr uncurry fst snd].
  repeat (rewrite lookup_insert; case_decide; [subst; auto|]).
  rewrite lookup_empty. auto.
Qed.

End CostTable.

(** Whatever the move type, the cost is 0, 1 or 2; the ladder never raises
    it and brings it to at most 1; a move type outside the table costs 0. *)
Theorem calculate_mp_cost_bounds (move_type : string) :
  0 ≤ calculate_mp_cost move_type true ≤ 1
  ∧ calculate_mp_cost move_type true ≤ calculate_mp_cost move_type false
  ∧ calculate_mp_cost move_type false ≤ 2
  ∧ (base_costs !! move_type = None →
     ∀ ladder, calculate_mp_cost move_type ladder = 0).
Proof.
  unfold calculate_mp_cost. cbn [andb].
  destruct (base_cost_cases move_type) as [H|[H|[H Hm]]]; rewrite H; cbn.
  - case_bool_decide as Hin;
      [|cbn; (split; [|split; [|split]]); try lia; intros _ []; reflexivity].
    exfalso. apply elem_of_cons in Hin as [->|Hin]; [vm_compute in H; discriminate H|].
    apply elem_of_cons in Hin as [->|Hin]; [vm_compute in H; discriminate H|].
    by apply elem_of_nil in Hin.
  - case_bool_decide; cbn; (split; [|split; [|split]]); try lia; intros [=].
  - clear H. destruct Hm as [->| ->]; vm_compute; repeat split;
      congruence.
Qed.

(** ** Steps of the interpreter, read backwards *)

Section StepInversion.

Lemma step_move_Continue (i : Z) (tile : string) (st st' : Interp) :
  step_move i tile st = Continue st' →
  (tile ∉ blocked_tiles (game_state st))
  ∧ game_state st' = game_state st
  ∧ current_position st' = Some tile
  ∧ ((current_position st = None
      ∧ (∃ n, parse_tile tile = Ok ("E"%char, n))
      ∧ total_mp st' = total_mp st)
     ∨ (∃ current mt c,
          current_position st = Some current
          ∧ is_valid_move current tile = (true, mt, c)
          ∧ total_mp st' = total_mp st
              + calculate_mp_cost mt (has_ladder (game_state st)))).
Proof.
  unfold step_move. case_bool_decide as Hb; [discriminate|].
  destruct (current_position st) as [current|].
  - destruct (is_valid_move current tile) as [[valid mt] c] eqn:Hm.
    destruct valid; [|discriminate]. intros [= <-]. cbn.
    repeat split; [done..|]. right. by exists current, mt, c.
  - destruct (parse_tile tile) as [[level n]|] eqn:Hp; [|discriminate].
    destruct (Ascii.eqb_spec level "E") as [->|]; [|discriminate].
    intros [= <-]. cbn. repeat split; [done..|]. left. eauto.
Qed.

Lemma step_collect_Continue (tile item : string) (st st' : Interp) :
  step_collect tile item st = Continue st' →
  current_position st = Some tile
  ∧ collect_item tile (game_state st)
    = (Some item, mark_collected item (game_state st))
  ∧ st' = {| game_state := mark_collected item (game_state st);
             total_mp := total_mp st;
             current_position := current_position st |}.
Proof.
  unfold step_collect. case_bool_decide as Hp; [|discriminate]. cbn [negb].
  unfold collect_item.
  destruct (collect_scan_result (collectibles (game_state st)) tile
              (game_state st)) as [H|[it H]]; rewrite H.
  - cbn. discriminate.
  - case_bool_decide as Hi; [|discriminate]. injection Hi as ->.
    intros [= <-]. done.
Qed.

Lemma step_clear_Continue (target : string) (st st' : Interp) :
  step_clear target st = Continue st' →
  "dynamite" ∈ collected_items (game_state st)
  ∧ dynamite_used (game_state st) = false
  ∧ target ∈ blocked_tiles (game_state st)
  ∧ total_mp st' = total_mp st
  ∧ current_position st' = current_position st
  ∧ collected_items (game_state st') = collected_items (game_state st)
  ∧ collectibles (game_state st') = collectibles (game_state st)
  ∧ has_ladder (game_state st') = has_ladder (game_state st)
  ∧ has_key (game_state st') = has_key (game_state st)
  ∧ dynamite_used (game_state st') = true
  ∧ blocked_tiles (game_state st')
    = blocked_tiles (game_state st) ∖ {[ target ]}.
Proof.
  unfold step_clear, use_dynamite.
  case_bool_decide as Hd; cbn [andb]; [|repeat case_match; discriminate].
  destruct (dynamite_used (game_state st)) eqn:Hu; cbn [negb];
    [repeat case_match; discriminate|].
  case_bool_decide as Hb; [|rewrite Hu; repeat case_match; discriminate].
  intros [= <-]. cbn. done.
Qed.

(** A property kept by every step is kept by a run, wherever it stops. *)
Lemma run_preserves (P : Interp → Prop) :
  (∀ i a st, P st → P (outcome_state (step i a st))) →
  ∀ actions i st, P st → P (outcome_state (run_actions i actions st)).
Proof.
  intros Hstep actions. induction actions as [|a rest IH]; intros i st H;
    [exact H|].
  simpl. pose proof (Hstep i a st H) as H'.
  destruct (step i a st) as [st'|st' msg]; [by apply IH|exact H'].
Qed.

(** A step that fails leaves the position and the total as they were. *)
Lemma step_Return (i : Z) (a : Action) (st st' : Interp) (msg : string) :
  step i a st = Return st' msg →
  current_position st' = current_position st ∧ total_mp st' = total_mp st
  ∧ blocked_tiles (game_state st') = blocked_tiles (game_state st).
Proof.
  destruct a as [tile|tile item|target]; cbn [step].
  - unfold step_move. repeat case_match; intros [= <- _]; done.
  - unfold step_collect, collect_item. case_bool_decide as Hp; cbn [negb];
      [|intros [= <- _]; done].
    destruct (collect_scan_result (collectibles (game_state st)) tile
                (game_state st)) as [Hc|[it Hc]]; rewrite Hc;
      case_bool_decide as Hi; intros [= <- _]; done.
  - unfold step_clear, use_dynamite.
    repeat case_match; simplify_eq; intros [= <- _]; done.
Qed.

End StepInversion.

(** ** The shape of a valid path *)

Section ValidPaths.

Lemma validate_path_true (path : string) (cfg : Scenario) (msg : string)
    (mp : Z) :
  validate_path path cfg = (true, msg, mp) →
  ∃ actions st,
    parse_path path = Ok actions
    ∧ run_actions 0 actions (initial_state cfg) = Continue st
    ∧ current_position st = Some "A1"
    ∧ has_key (game_state st) = true
    ∧ msg = "Path is valid" ∧ mp = total_mp st.
Proof.
  unfold validate_path.
  destruct (parse_path path) as [actions|e]; [|discriminate].
  destruct (run_actions 0 actions (initial_state cfg)) as [st|st m] eqn:Hrun;
    [|discriminate].
  unfold final_checks. case_bool_decide as Hpos; [|discriminate]. cbn [negb].
  destruct (has_key (game_state st)) eqn:Hkey; [|discriminate].
  intros [= <- <-]. by exists actions, st.
Qed.

Lemma step_Continue_tile (i : Z) (a : Action) (st st' : Interp) :
  step i a st = Continue st' →
  match a with
  | Move tile => is_tile tile = true ∧ current_position st' = Some tile
  | _ => current_position st' = current_position st
  end.
Proof.
  destruct a as [tile|tile item|target]; cbn [step].
  - intros (_ & _ & Hpos & [(_ & [n Hn] & _)|(cur & mt & c & _ & Hm & _)])
      %step_move_Continue; split; try done; unfold is_tile.
    + by rewrite Hn.
    + destruct (is_valid_move_parsed _ _ _ _ Hm) as (? & ? & ? & ? & _ & ->).
      done.
  - by intros (_ & _ & ->)%step_collect_Continue.
  - by intros (_ & _ & _ & _ & -> & _)%step_clear_Continue.
Qed.

(** After a run that goes through, every Move tile parses and the actor is
    on the tile of the last Move. *)
Lemma run_Continue_tiles (actions : list Action) (i : Z) (st st' : Interp) :
  run_actions i actions st = Continue st' →
  Forall (λ tile, is_tile tile = true) (move_tiles actions)
  ∧ current_position st'
    = match last (move_tiles actions) with
      | Some tile => Some tile
      | None => current_position st
      end.
Proof.
  revert i st. induction actions as [|a rest IH]; intros i st; simpl.
  - intros [= <-]. split; [constructor|done].
  - destruct (step i a st) as [st1|st1 m] eqn:Hstep; [|discriminate].
    intros [Hall Hpos]%IH. apply step_Continue_tile in Hstep.
    destruct a as [tile|tile item|target]; simpl.
    + destruct Hstep as [Ht Hp]. split; [by constructor|].
      rewrite Hpos, Hp. rewrite last_cons. by destruct (last _).
    + by rewrite Hpos, Hstep.
    + by rewrite Hpos, Hstep.
Qed.

(** From the initial state only a Move to an E-level tile goes through. *)
Lemma first_step (i : Z) (a : Action) (cfg : Scenario) (st' : Interp) :
  step i a (initial_state cfg) = Continue st' →
  ∃ start n, a = Move start ∧ parse_tile start = Ok ("E"%char, n)
             ∧ (start ∉ sc_blocked cfg).
Proof.
  destruct a as [tile|tile item|target]; cbn [step].
  - intros (Hb & _ & _ & [(_ & [n Hn] & _)|(cur & mt & c & [=] & _)])
      %step_move_Continue.
    exists tile, n. repeat split; [done|].
    intros Hin. apply Hb. cbn. by apply elem_of_list_to_set.
  - by intros ([=] & _)%step_collect_Continue.
  - intros (Hd & _)%step_clear_Continue. cbn in Hd.
    by apply not_elem_of_empty in Hd.
Qed.

End ValidPaths.

(** A valid path starts with a Move onto an unblocked E-level tile, names
    only well-formed tiles in its Moves, ends with a Move onto A1 and has a
    Collect of the key. *)
Theorem valid_path_shape (path : string) (cfg : Scenario) (msg : string)
    (mp : Z) :
  validate_path path cfg = (true, msg, mp) →
  ∃ start n rest,
    parse_path path = Ok (Move start :: rest)
    ∧ parse_tile start = Ok ("E"%char, n)
    ∧ (start ∉ sc_blocked cfg)
    ∧ Forall (λ tile, is_tile tile = true) (move_tiles (Move start :: rest))
    ∧ last (move_tiles (Move start :: rest)) = Some "A1"
    ∧ collects_key (Move start :: rest) = true
    ∧ msg = "Path is valid".
Proof.
  intros (actions & st & Hpath & Hrun & Hpos & Hkey & -> & _)
    %validate_path_true.
  destruct actions as [|a rest].
  { simpl in Hrun. injection Hrun as <-. discriminate Hpos. }
  pose proof Hrun as Hrun'. cbn [run_actions] in Hrun'.
  destruct (step 0 a (initial_state cfg)) as [st1|st1 m] eqn:Hstep;
    [|discriminate].
  destruct (first_step _ _ _ _ Hstep) as (start & n & -> & Hn & Hfree).
  exists start, n, rest. rewrite Hpath.
  destruct (run_Continue_tiles _ _ _ _ Hrun) as [Hall Hlast].
  repeat split; try done.
  - rewrite Hpos in Hlast. simpl in Hlast |- *.
    by destruct (last (start :: move_tiles rest)).
  - rewrite (run_has_key _ _ _ _ Hrun) in Hkey. done.
Qed.

Lemma valid_path_shape_witness :
  ∃ start n rest,
    parse_path "E1|D1|D1:key|C1|B1|A1" = Ok (Move start :: rest)
    ∧ parse_tile start = Ok ("E"%char, n)
    ∧ (start ∉ @nil string)
    ∧ Forall (λ tile, is_tile tile = true) (move_tiles (Move start :: rest))
    ∧ last (move_tiles (Move start :: rest)) = Some "A1"
    ∧ collects_key (Move start :: rest) = true
    ∧ "Path is valid" = "Path is valid".
Proof.
  apply (valid_path_shape "E1|D1|D1:key|C1|B1|A1"
           (mkScenario [] [("key", "D1")] [] None) "Path is valid" 8).
  vm_compute. reflexivity.
Defined.

(** ** Bounds on the total *)

Section TotalBounds.

Lemma charge_bounds (i : Z) (tile : string) (st st' : Interp) :
  step_move i tile st = Continue st' →
  match current_position st with
  | None => total_mp st' = total_mp st
  | Some _ => total_mp st + 1 ≤ total_mp st' ≤ total_mp st + 2
  end.
Proof.
  intros (_ & _ & _ & [(-> & _ & ->)|(cur & mt & c & -> & Hm & ->)])
    %step_move_Continue; [done|].
  destruct (cost_of_legal_move _ _ _ _ (has_ladder (game_state st)) Hm)
    as [Hc ->]. destruct (has_ladder _); lia.
Qed.

Lemma run_total_upper (actions : list Action) (i : Z) (st : Interp) :
  total_mp st ≤ total_mp (outcome_state (run_actions i actions st))
  ≤ total_mp st + 2 * charged_moves actions st.
Proof.
  revert i st. induction actions as [|a rest IH]; intros i st.
  - unfold charged_moves. simpl. destruct (current_position st); lia.
  - cbn [run_actions].
    destruct (step i a st) as [st1|st1 m] eqn:Hstep.
    + specialize (IH (i + 1) st1). unfold charged_moves in *.
      destruct a as [tile|tile item|target]; cbn [step] in Hstep.
      * pose proof (charge_bounds _ _ _ _ Hstep) as Hc.
        apply step_move_Continue in Hstep as (_ & _ & Hp & _).
        rewrite Hp in IH. cbn [move_tiles length].
        destruct (current_position st); lia.
      * apply step_collect_Continue in Hstep as (Hp & _ & ->).
        cbn [move_tiles] in *. cbn in IH. rewrite Hp in *. lia.
      * apply step_clear_Continue in Hstep as (_ & _ & _ & Ht & Hp & _).
        cbn [move_tiles] in *. rewrite Hp, Ht in IH. lia.
    + apply step_Return in Hstep as (_ & Ht & _). cbn [outcome_state].
      rewrite Ht. unfold charged_moves. destruct (current_position st); lia.
Qed.

Lemma run_total_lower (actions : list Action) (i : Z) (st st' : Interp) :
  run_actions i actions st = Continue st' →
  total_mp st + charged_moves actions st ≤ total_mp st'.
Proof.
  revert i st. induction actions as [|a rest IH]; intros i st.
  - intros [= <-]. unfold charged_moves. simpl.
    destruct (current_position st); lia.
  - cbn [run_actions].
    destruct (step i a st) as [st1|st1 m] eqn:Hstep; [|discriminate].
    intros Hrun. specialize (IH _ _ Hrun). unfold charged_moves in *.
    destruct a as [tile|tile item|target]; cbn [step] in Hstep.
    + pose proof (charge_bounds _ _ _ _ Hstep) as Hc.
      apply step_move_Continue in Hstep as (_ & _ & Hp & _).
      rewrite Hp in IH. cbn [move_tiles length].
      destruct (current_position st); lia.
    + apply step_collect_Continue in Hstep as (Hp & _ & ->).
      cbn [move_tiles] in *. cbn in IH. rewrite Hp in *. lia.
    + apply step_clear_Continue in Hstep as (_ & _ & _ & Ht & Hp & _).
      cbn [move_tiles] in *. rewrite Hp, Ht in IH. lia.
Qed.

End TotalBounds.

(** The total is never negative and never more than twice the number of
    Moves after the first; for a valid path it is at least that number. *)
Theorem total_mp_bounds (path : string) (cfg : Scenario)
    (actions : list Action) :
  parse_path path = Ok actions →
  0 ≤ (validate_path path cfg).2
    ≤ 2 * Z.of_nat (length (move_tiles actions) - 1)
  ∧ ((validate_path path cfg).1.1 = true →
     Z.of_nat (length (move_tiles actions) - 1) ≤ (validate_path path cfg).2).
Proof.
  intros Hpath. unfold validate_path. rewrite Hpath.
  pose proof (run_total_upper actions 0 (initial_state cfg)) as Hup.
  unfold charged_moves in Hup. cbn [initial_state current_position total_mp]
    in Hup.
  destruct (run_actions 0 actions (initial_state cfg)) as [st|st m] eqn:Hrun;
    cbn [outcome_state] in Hup.
  - rewrite final_checks_total. split; [lia|]. intros _.
    pose proof (run_total_lower _ _ _ _ Hrun) as Hlo.
    unfold charged_moves in Hlo. cbn in Hlo. lia.
  - cbn. split; [lia|discriminate].
Qed.

Lemma total_mp_bounds_witness :
  let cfg := mkScenario [] [("ladder", "E1"); ("key", "D1")] [] None in
  let path := "E1|E1:ladder|D1|D1:key|C1|C2|B1|A1" in
  validate_path path cfg = (true, "Path is valid", 5)
  ∧ 0 ≤ (validate_path path cfg).2 ≤ 2 * 5
  ∧ ((validate_path path cfg).1.1 = true → 5 ≤ (validate_path path cfg).2).
Proof.
  intros cfg path. split; [vm_compute; reflexivity|].
  apply (total_mp_bounds path cfg
           [Move "E1"; Collect "E1" "ladder"; Move "D1"; Collect "D1" "key";
            Move "C1"; Move "C2"; Move "B1"; Move "A1"]).
  reflexivity.
Defined.

Section Climb.

Variable k : Z.
Hypothesis Hk : k = 1 ∨ k = 2.

Lemma collect_scan_registered (items : list (string * string))
    (tile : string) (gs : GameState) (it : string) (gs' : GameState) :
  collect_scan items tile gs = (Some it, gs') →
  (it, tile) ∈ items ∧ (it ∉ collected_items gs)
  ∧ gs' = mark_collected it gs.
Proof.
  induction items as [|[item_type location] rest IH]; simpl; [discriminate|].
  destruct (bool_decide (location = tile)
            && bool_decide (item_type ∉ collected_items gs)) eqn:Hc.
  - apply andb_true_iff in Hc as [Hl%bool_decide_eq_true
                                    Hn%bool_decide_eq_true].
    intros [= <- <-]. subst. repeat split; [left|done].
  - intros (Hin & Hn & ->)%IH. repeat split; [by right|done].
Qed.

Lemma collect_item_ladder (tile : string) (gs : GameState) :
  "ladder" ∉ (collectibles gs).*1 → has_ladder gs = false →
  ("ladder" ∉ (collectibles (collect_item tile gs).2).*1)
  ∧ has_ladder (collect_item tile gs).2 = false.
Proof.
  intros Hno Hl. unfold collect_item.
  destruct (collect_scan (collectibles gs) tile gs) as [[it|] gs'] eqn:Hc.
  - apply collect_scan_registered in Hc as (Hin & _ & ->). cbn.
    split; [done|]. case_bool_decide as Hit; [|done]. subst. exfalso.
    apply Hno. apply list_elem_of_fmap. by exists ("ladder", tile).
  - destruct (collect_scan_result (collectibles gs) tile gs)
      as [H|[it H]]; rewrite H in Hc; [|discriminate].
    injection Hc as <-. done.
Qed.

Lemma climb_inv_step (i : Z) (a : Action) (st : Interp) :
  climb_inv k st → climb_inv k (outcome_state (step i a st)).
Proof.
  intros (Htot & Hlad & Hpos).
  destruct (step i a st) as [st'|st' m] eqn:Hstep; cbn [outcome_state].
  - destruct a as [tile|tile item|target]; cbn [step] in Hstep.
    + pose proof (charge_bounds _ _ _ _ Hstep) as Hc.
      apply step_move_Continue in Hstep
        as (_ & Hgs & Hp & [(Hnone & [n Hn] & Ht)
                           |(cur & mt & c & Hcur & Hm & Ht)]).
      * unfold climb_inv. rewrite Hgs, Hp, Ht.
        split; [done|]. split; [done|]. exists "E"%char, n.
        split; [done|]. change (PyStr.ord "E") with 69. lia.
      * unfold climb_inv. rewrite Hgs, Hp. rewrite Hcur in Hpos, Hc.
        split; [lia|]. split; [done|].
        destruct Hpos as (l & n & Hl & Hle).
        destruct (is_valid_move_parsed _ _ _ _ Hm)
          as (l' & n' & lt & nt & Hl' & Hlt). simplify_eq.
        exists lt, nt. split; [done|].
        destruct (cost_of_legal_move _ _ _ _ (has_ladder (game_state st)) Hm)
          as [_ Hcost].
        destruct (legal_move_cases _ _ _ _ _ _ _ _ Hl Hlt Hm)
          as [(-> & _ & _)|[(Ho & -> & _)|(Ho & _ & _)]].
        -- lia.
        -- rewrite Ho, Ht, Hcost. destruct Hk as [->| ->].
           ++ destruct (has_ladder _); lia.
           ++ destruct (Hlad eq_refl) as [_ ->]. lia.
        -- rewrite Ho. destruct Hk as [->| ->]; lia.
    + apply step_collect_Continue in Hstep as (Hp & Hc & ->).
      unfold climb_inv. cbn [total_mp current_position game_state].
      split; [done|]. split; [|done]. intros Hk2.
      destruct (Hlad Hk2) as [Hno Hl].
      pose proof (collect_item_ladder tile _ Hno Hl) as H.
      by rewrite Hc in H.
    + apply step_clear_Continue in Hstep
        as (_ & _ & _ & Ht & Hp & _ & Hcs & Hl & _).
      unfold climb_inv. by rewrite Ht, Hp, Hcs, Hl.
  - pose proof (step_Return _ _ _ _ _ Hstep) as (Hp & Ht & _).
    unfold climb_inv. rewrite Hp, Ht. split; [done|]. split; [|done].
    intros Hk2. destruct (Hlad Hk2) as [Hno Hl].
    destruct a as [tile|tile item|target]; cbn [step] in Hstep.
    + unfold step_move in Hstep. repeat case_match; by simplify_eq.
    + unfold step_collect in Hstep.
      case_bool_decide as Hq; cbn [negb] in Hstep; [|by simplify_eq].
      pose proof (collect_item_ladder tile _ Hno Hl) as Hc.
      destruct (collect_item tile (game_state st)) as [r gs]. cbn in Hc.
      case_bool_decide as Hr; cbn [negb] in Hstep; simplify_eq. exact Hc.
    + unfold step_clear, use_dynamite in Hstep.
      repeat case_match; by simplify_eq.
Qed.

Lemma climb_inv_run (actions : list Action) (i : Z) (st : Interp) :
  climb_inv k st → climb_inv k (outcome_state (run_actions i actions st)).
Proof. apply (run_preserves (climb_inv k)). intros. by apply climb_inv_step. Qed.

End Climb.

(** ** The dictionary of collectibles *)

Section Dict.

Lemma dict_set_keys (k v k' : string) (d : list (string * string)) :
  k' ∈ (dict_set k v d).*1 ↔ k' = k ∨ k' ∈ d.*1.
Proof.
  induction d as [|[k0 v0] d IH]; simpl.
  - rewrite list_elem_of_singleton, elem_of_nil. tauto.
  - case_bool_decide as Hk; simpl; rewrite !elem_of_cons.
    + subst. tauto.
    + rewrite IH. tauto.
Qed.

Lemma dict_set_NoDup (k v : string) (d : list (string * string)) :
  NoDup d.*1 → NoDup (dict_set k v d).*1.
Proof.
  induction d as [|[k0 v0] d IH]; simpl.
  - intros _. apply NoDup_singleton.
  - intros [Hn Hd]%NoDup_cons. case_bool_decide as Hk; simpl.
    + subst. by apply NoDup_cons.
    + apply NoDup_cons. split; [|by apply IH].
      rewrite dict_set_keys. intros [->|Hin]; [done|]. by apply Hn.
Qed.

Lemma dict_set_elem (k v k' v' : string) (d : list (string * string)) :
  NoDup d.*1 →
  (k', v') ∈ dict_set k v d ↔
    (k' = k ∧ v' = v) ∨ (k' ≠ k ∧ (k', v') ∈ d).
Proof.
  induction d as [|[k0 v0] d IH]; simpl.
  - intros _. rewrite list_elem_of_singleton, elem_of_nil.
    split; [intros [= -> ->]; by left|intros [[-> ->]|[_ []]]; done].
  - intros [Hn Hd]%NoDup_cons. case_bool_decide as Hk; rewrite !elem_of_cons.
    + subst. split.
      * intros [[= -> ->]|Hin]; [by left|]. right. split; [|by right].
        intros ->. apply Hn. apply list_elem_of_fmap. by exists (k, v').
      * intros [[-> ->]|[Hne [[= -> ->]|Hin]]]; [by left|done|by right].
    + rewrite (IH Hd). split.
      * intros [[= -> ->]|[[-> ->]|[Hne Hin]]]; [right|by left|right]; auto.
      * intros [[-> ->]|[Hne [[= -> ->]|Hin]]]; auto.
Qed.

Lemma fold_dict_set (items d : list (string * string)) :
  NoDup d.*1 →
  let d' := fold_left (λ d '(k, v), dict_set k v d) items d in
  NoDup d'.*1
  ∧ (∀ k, k ∈ d'.*1 ↔ k ∈ d.*1 ∨ k ∈ items.*1)
  ∧ (∀ k v, (k, v) ∈ d' ↔
       (∃ l1 l2, items = l1 ++ (k, v) :: l2 ∧ k ∉ l2.*1)
       ∨ ((k ∉ items.*1) ∧ (k, v) ∈ d)).
Proof.
  revert d. induction items as [|[k0 v0] items IH]; intros d Hd; simpl.
  - split; [done|]. split.
    + intros k. rewrite elem_of_nil. tauto.
    + intros k v. split; [intros Hin; right; split; [apply not_elem_of_nil|done]|].
      intros [(l1 & l2 & Heq & _)|[_ Hin]]; [|done].
      by destruct l1.
  - destruct (IH (dict_set k0 v0 d) (dict_set_NoDup k0 v0 d Hd))
      as (Hnd & Hkeys & Helem).
    split; [done|]. split.
    + intros k. rewrite Hkeys, dict_set_keys, elem_of_cons. tauto.
    + intros k v. rewrite Helem, (dict_set_elem _ _ _ _ _ Hd). split.
      * intros [(l1 & l2 & -> & Hn)|[Hn [[-> ->]|[Hne Hin]]]].
        -- left. by exists ((k0, v0) :: l1), l2.
        -- left. by exists [], items.
        -- right. split; [|done]. rewrite elem_of_cons. tauto.
      * intros [(l1 & l2 & Heq & Hn)|[Hn Hin]].
        -- destruct l1 as [|p l1]; simpl in Heq; simplify_eq.
           ++ right. split; [done|]. by left.
           ++ left. by exists l1, l2.
        -- rewrite elem_of_cons in Hn. right. split; [tauto|].
           right. split; [|done]. intros ->. tauto.
Qed.

End Dict.

(** The dictionary of collectibles has one entry per item type, and the
    location it keeps for a type is that of the last entry of the scenario
    for that type. *)
Theorem dict_of_items_last_wins (items : list (string * string)) :
  NoDup (dict_of_items items).*1
  ∧ (∀ k, k ∈ (dict_of_items items).*1 ↔ k ∈ items.*1)
  ∧ (∀ k v, (k, v) ∈ dict_of_items items ↔
       ∃ l1 l2, items = l1 ++ (k, v) :: l2 ∧ k ∉ l2.*1).
Proof.
  destruct (fold_dict_set items [] (NoDup_nil_2 (A:=string))) as (Hnd & Hkeys & Helem).
  split; [exact Hnd|]. split.
  - intros k. rewrite (Hkeys k). simpl. rewrite elem_of_nil. tauto.
  - intros k v. rewrite (Helem k v). rewrite elem_of_nil. tauto.
Qed.

Lemma dict_of_items_elem (items : list (string * string)) (k v : string) :
  (k, v) ∈ dict_of_items items ↔
  ∃ l1 l2, items = l1 ++ (k, v) :: l2 ∧ k ∉ l2.*1.
Proof.
  destruct (fold_dict_set items [] (NoDup_nil_2 (A:=string)))
    as (_ & _ & Helem).
  rewrite (Helem k v). rewrite elem_of_nil. tauto.
Qed.

Lemma dict_of_items_keys (items : list (string * string)) (k : string) :
  k ∈ (dict_of_items items).*1 ↔ k ∈ items.*1.
Proof.
  destruct (fold_dict_set items [] (NoDup_nil_2 (A:=string)))
    as (_ & Hkeys & _).
  rewrite (Hkeys k). simpl. rewrite elem_of_nil. tauto.
Qed.

Lemma climb_inv_initial (k : Z) (cfg : Scenario) :
  (k = 2 → "ladder" ∉ (sc_collectibles cfg).*1) →
  climb_inv k (initial_state cfg).
Proof.
  intros H. split; [done|]. split; [|done]. intros Hk. split; [|done].
  cbn. rewrite dict_of_items_keys. auto.
Qed.

(** No valid path costs less than 4 MP, and none less than 8 MP in a
    scenario that has no ladder. *)
Theorem valid_path_costs_at_least (path : string) (cfg : Scenario)
    (msg : string) (mp : Z) :
  validate_path path cfg = (true, msg, mp) →
  4 ≤ mp ∧ ("ladder" ∉ (sc_collectibles cfg).*1 → 8 ≤ mp).
Proof.
  intros (actions & st & _ & Hrun & Hpos & _ & _ & ->)%validate_path_true.
  assert (∀ k, k = 1 ∨ k = 2 →
               (k = 2 → "ladder" ∉ (sc_collectibles cfg).*1) →
               k * 4 ≤ total_mp st) as H.
  { intros k Hk Hno.
    pose proof (climb_inv_run k Hk actions 0 (initial_state cfg)
                  (climb_inv_initial k cfg Hno)) as (_ & _ & Hp).
    rewrite Hrun in Hp. cbn [outcome_state] in Hp. rewrite Hpos in Hp.
    destruct Hp as (l & n & [= <- <-] & Hle).
    change (PyStr.ord "A") with 65 in Hle. lia. }
  split.
  - assert (1 * 4 ≤ total_mp st) by (apply H; [by left|intros; lia]). lia.
  - intros Hno.
    assert (2 * 4 ≤ total_mp st) by (apply H; [by right|done]). lia.
Qed.

Lemma valid_path_costs_at_least_witness :
  let cfg := mkScenario [] [("key", "D1")] [] None in
  validate_path "E1|D1|D1:key|C1|B1|A1" cfg = (true, "Path is valid", 8)
  ∧ 4 ≤ 8 ∧ ("ladder" ∉ (sc_collectibles cfg).*1 → 8 ≤ 8).
Proof.
  intros cfg. split; [vm_compute; reflexivity|].
  apply (valid_path_costs_at_least "E1|D1|D1:key|C1|B1|A1" cfg
           "Path is valid" 8).
  vm_compute. reflexivity.
Defined.

(** ** Collected items and flags *)

Section Collected.

Lemma mark_collected_flags (item : string) (gs : GameState) :
  has_ladder gs = bool_decide ("ladder" ∈ collected_items gs) →
  has_key gs = bool_decide ("key" ∈ collected_items gs) →
  has_ladder (mark_collected item gs)
  = bool_decide ("ladder" ∈ collected_items (mark_collected item gs))
  ∧ has_key (mark_collected item gs)
    = bool_decide ("key" ∈ collected_items (mark_collected item gs)).
Proof.
  intros Hl Hk. unfold mark_collected. cbn.
  destruct (decide (item = "ladder")) as [->|Hnl].
  - cbn. split.
    + symmetry. apply bool_decide_eq_true_2, elem_of_union_l.
      by apply elem_of_singleton.
    + rewrite Hk. apply bool_decide_ext. rewrite elem_of_union,
        elem_of_singleton. split; [by right|]. by intros [[=]|?].
  - rewrite (bool_decide_eq_false_2 _ Hnl). cbn. split.
    + rewrite Hl. apply bool_decide_ext. rewrite elem_of_union,
        elem_of_singleton. split; [by right|]. intros [?|?]; [|done].
      by subst.
    + destruct (decide (item = "key")) as [->|Hnk].
      * cbn. symmetry. apply bool_decide_eq_true_2, elem_of_union_l.
        by apply elem_of_singleton.
      * rewrite (bool_decide_eq_false_2 _ Hnk), Hk. apply bool_decide_ext.
        rewrite elem_of_union, elem_of_singleton.
        split; [by right|]. intros [?|?]; [|done]. by subst.
Qed.

Variable items : list (string * string).

Lemma state_inv_collect (tile : string) (st : Interp) :
  state_inv items st →
  state_inv items
    {| game_state := (collect_item tile (game_state st)).2;
       total_mp := total_mp st;
       current_position := current_position st |}.
Proof.
  intros (Hc & Hl & Hk & Hsub & Hpos). unfold collect_item.
  destruct (collect_scan (collectibles (game_state st)) tile (game_state st))
    as [[it|] gs'] eqn:Hs.
  - apply collect_scan_registered in Hs as (Hin & _ & ->).
    destruct (mark_collected_flags it _ Hl Hk) as [Hl' Hk'].
    split; [exact Hc|]. split; [exact Hl'|]. split; [exact Hk'|].
    split; [|exact Hpos].
    intros item. cbn. rewrite elem_of_union, elem_of_singleton.
    intros [->|Hi]; [|by apply Hsub].
    rewrite <- Hc. apply list_elem_of_fmap. by exists (it, tile).
  - destruct (collect_scan_result (collectibles (game_state st)) tile
                (game_state st)) as [H|[it H]]; rewrite H in Hs;
      [|discriminate].
    injection Hs as <-. done.
Qed.

Lemma state_inv_step (i : Z) (a : Action) (st : Interp) :
  state_inv items st → state_inv items (outcome_state (step i a st)).
Proof.
  intros Hinv. pose proof Hinv as (Hc & Hl & Hk & Hsub & Hpos).
  destruct a as [tile|tile item|target]; cbn [step].
  - destruct (step_move i tile st) as [st'|st' m] eqn:Hstep;
      cbn [outcome_state].
    + pose proof (step_Continue_tile i (Move tile) st st' Hstep) as [Ht _].
      apply step_move_Continue in Hstep as (Hb & Hgs & Hp & _).
      unfold state_inv. rewrite Hgs, Hp.
      split; [exact Hc|]. split; [exact Hl|]. split; [exact Hk|].
      split; [exact Hsub|]. by intros ? [= <-].
    + unfold step_move in Hstep. repeat case_match; by simplify_eq.
  - unfold step_collect.
    destruct (bool_decide (current_position st = Some tile)); cbn [negb];
      [|exact Hinv].
    pose proof (state_inv_collect tile st Hinv) as H.
    destruct (collect_item tile (game_state st)) as [r gs].
    destruct (bool_decide (r = Some item)); exact H.
  - unfold step_clear, use_dynamite.
    destruct (bool_decide ("dynamite" ∈ collected_items (game_state st))
              && negb (dynamite_used (game_state st))) eqn:Hd.
    + destruct (bool_decide (target ∈ blocked_tiles (game_state st)));
        cbn [negb outcome_state].
      * split; [exact Hc|]. split; [exact Hl|]. split; [exact Hk|].
        split; [exact Hsub|].
        intros tile Ht. destruct (Hpos tile Ht) as [H1 H2]. split; [done|].
        cbn. rewrite elem_of_difference. tauto.
      * repeat case_match; cbn [outcome_state]; by destruct st.
    + cbn [negb]. repeat case_match; cbn [outcome_state]; by destruct st.
Qed.

End Collected.

Lemma state_inv_initial (cfg : Scenario) :
  state_inv (dict_of_items (sc_collectibles cfg)) (initial_state cfg).
Proof.
  split; [done|]. split; [done|]. split; [done|]. split; [|done].
  intros item Hin. cbn in Hin. by apply not_elem_of_empty in Hin.
Qed.

(** At every point of every evaluation, wherever it stops, the ladder and
    key flags agree with the set of collected items, every collected item
    is an item type of the scenario, and the actor stands on a well-formed
    tile that is not blocked. *)
Theorem evaluation_state_invariant (cfg : Scenario) (actions : list Action) :
  let st := outcome_state (run_actions 0 actions (initial_state cfg)) in
  has_ladder (game_state st)
  = bool_decide ("ladder" ∈ collected_items (game_state st))
  ∧ has_key (game_state st)
    = bool_decide ("key" ∈ collected_items (game_state st))
  ∧ (∀ item, item ∈ collected_items (game_state st) →
             item ∈ (sc_collectibles cfg).*1)
  ∧ (∀ tile, current_position st = Some tile →
             is_tile tile = true ∧ tile ∉ blocked_tiles (game_state st)).
Proof.
  intros st.
  pose proof (run_preserves _ (state_inv_step _) actions 0
                (initial_state cfg) (state_inv_initial cfg))
    as (_ & Hl & Hk & Hsub & Hpos).
  split; [exact Hl|]. split; [exact Hk|]. split; [|exact Hpos].
  intros item Hin. apply dict_of_items_keys. by apply Hsub.
Qed.

Section CollectOnce.

Lemma run_Continue_collects (actions : list Action) (i : Z)
    (st st' : Interp) :
  run_actions i actions st = Continue st' →
  collectibles (game_state st') = collectibles (game_state st)
  ∧ collected_items (game_state st')
    = collected_items (game_state st)
      ∪ list_to_set (collect_requests actions).*1
  ∧ NoDup (collect_requests actions).*1
  ∧ (∀ item tile, (item, tile) ∈ collect_requests actions →
       (item, tile) ∈ collectibles (game_state st)
       ∧ item ∉ collected_items (game_state st)).
Proof.
  revert i st. induction actions as [|a rest IH]; intros i st.
  - intros [= <-]. simpl. split; [done|].
    split; [symmetry; apply (right_id_L ∅ (∪))|].
    split; [constructor|]. intros ?? Hin. by apply elem_of_nil in Hin.
  - cbn [run_actions].
    destruct (step i a st) as [st1|st1 m] eqn:Hstep; [|discriminate].
    intros (Hcs & Hcol & Hnd & Hreg)%IH.
    destruct a as [tile|tile item|target]; cbn [step] in Hstep;
      cbn [collect_requests].
    + apply step_move_Continue in Hstep as (_ & Hgs & _).
      by rewrite Hgs in Hcs, Hcol, Hreg.
    + apply step_collect_Continue in Hstep as (_ & Hc & ->).
      unfold collect_item in Hc.
      apply collect_scan_registered in Hc as (Hin & Hfresh & _).
      cbn in Hcs, Hcol, Hreg. split; [done|]. split.
      { rewrite Hcol. cbn. by rewrite (assoc_L (∪)),
          (comm_L (∪) {[item]} (collected_items _)). }
      split.
      { cbn. apply NoDup_cons. split; [|done].
        intros ((it & t) & Heq & Hin')%list_elem_of_fmap. cbn in Heq. subst.
        destruct (Hreg _ _ Hin') as [_ Hn]. apply Hn.
        apply elem_of_union_l. by apply elem_of_singleton. }
      intros it t [[= -> ->]|Hin']%elem_of_cons; [done|].
      destruct (Hreg _ _ Hin') as [H1 H2]. split; [done|].
      intros Hit. apply H2. by apply elem_of_union_r.
    + apply step_clear_Continue in Hstep
        as (_ & _ & _ & _ & _ & Hc1 & Hc2 & _).
      by rewrite Hc1, Hc2 in *.
Qed.

End CollectOnce.

(** In a valid path no item is collected twice, and every Collect names an
    item together with the tile where the scenario (its last entry for that
    item type) puts it. *)
Theorem valid_path_collects (path : string) (cfg : Scenario) (msg : string)
    (mp : Z) (actions : list Action) :
  validate_path path cfg = (true, msg, mp) →
  parse_path path = Ok actions →
  NoDup (collect_requests actions).*1
  ∧ ∀ item tile, (item, tile) ∈ collect_requests actions →
      ∃ l1 l2, sc_collectibles cfg = l1 ++ (item, tile) :: l2
               ∧ item ∉ l2.*1.
Proof.
  intros (actions' & st & Hpath & Hrun & _)%validate_path_true Hp.
  rewrite Hp in Hpath. injection Hpath as <-.
  destruct (run_Continue_collects _ _ _ _ Hrun) as (_ & _ & Hnd & Hreg).
  split; [exact Hnd|]. intros item tile Hin.
  destruct (Hreg item tile Hin) as [Hd _]. cbn in Hd.
  by apply dict_of_items_elem in Hd.
Qed.

Lemma valid_path_collects_witness :
  let cfg := mkScenario [] [("key", "E9"); ("ladder", "E1"); ("key", "D1")]
               [] None in
  let actions := [Move "E1"; Collect "E1" "ladder"; Move "D1";
                  Collect "D1" "key"; Move "C1"; Move "B1"; Move "A1"] in
  NoDup (collect_requests actions).*1
  ∧ ∀ item tile, (item, tile) ∈ collect_requests actions →
      ∃ l1 l2, sc_collectibles cfg = l1 ++ (item, tile) :: l2
               ∧ item ∉ l2.*1.
Proof.
  intros cfg actions.
  apply (valid_path_collects "E1|E1:ladder|D1|D1:key|C1|B1|A1" cfg
           "Path is valid" 4 actions).
  - vm_compute. reflexivity.
  - reflexivity.
Defined.

Section NoDynamite.

Variable cfg : Scenario.
Hypothesis Hno : "dynamite" ∉ (sc_collectibles cfg).*1.

Lemma no_dynamite_collected (st : Interp) :
  state_inv (dict_of_items (sc_collectibles cfg)) st →
  "dynamite" ∉ collected_items (game_state st).
Proof.
  intros (_ & _ & _ & Hsub & _) Hin. apply Hno.
  apply dict_of_items_keys. by apply Hsub.
Qed.

Lemma no_dynamite_run (actions : list Action) (i : Z) (st st' : Interp) :
  state_inv (dict_of_items (sc_collectibles cfg)) st →
  clear_inv (list_to_set (sc_blocked cfg)) (game_state st) →
  run_actions i actions st = Continue st' →
  clear_targets actions = []
  ∧ Forall (λ tile, tile ∉ sc_blocked cfg) (move_tiles actions).
Proof.
  revert i st. induction actions as [|a rest IH]; intros i st Hs Hc.
  - intros _. split; [done|constructor].
  - cbn [run_actions].
    destruct (step i a st) as [st1|st1 m] eqn:Hstep; [|discriminate].
    pose proof (state_inv_step _ i a st Hs) as Hs1.
    pose proof (clear_inv_step _ i a st Hc) as Hc1.
    rewrite Hstep in Hs1, Hc1. cbn [outcome_state] in Hs1, Hc1.
    intros [Hcl Hmv]%(IH _ _ Hs1 Hc1).
    pose proof (no_dynamite_collected st Hs) as Hnd.
    destruct a as [tile|tile item|target]; cbn [step] in Hstep; simpl.
    + split; [done|]. constructor; [|done].
      apply step_move_Continue in Hstep as (Hb & _).
      destruct Hc as [Hu Hbl].
      destruct (dynamite_used (game_state st)); [by destruct Hnd; apply Hu|].
      rewrite Hbl in Hb. intros Hin. apply Hb.
      by apply elem_of_list_to_set.
    + done.
    + by apply step_clear_Continue in Hstep as (Hd & _).
Qed.

Lemma no_dynamite_state (actions : list Action) :
  let st := outcome_state (run_actions 0 actions (initial_state cfg)) in
  blocked_tiles (game_state st) = list_to_set (sc_blocked cfg)
  ∧ dynamite_used (game_state st) = false
  ∧ "dynamite" ∉ collected_items (game_state st).
Proof.
  cbn zeta.
  pose proof (run_preserves _ (state_inv_step _) actions 0
                (initial_state cfg) (state_inv_initial cfg)) as Hs.
  pose proof (clear_inv_run (list_to_set (sc_blocked cfg)) actions 0
                (initial_state cfg) (clear_inv_initial cfg)) as [Hu Hb].
  pose proof (no_dynamite_collected _ Hs) as Hnd.
  destruct (dynamite_used _); [by destruct Hnd; apply Hu|done].
Qed.

Lemma clear_without_dynamite (target : string) (st : Interp) :
  "dynamite" ∉ collected_items (game_state st) →
  step_clear target st
  = Return st ("Cannot clear " +:+ target +:+ " - no dynamite collected").
Proof.
  intros Hnd. unfold step_clear, use_dynamite.
  rewrite (bool_decide_eq_false_2 _ Hnd). cbn [andb negb].
  rewrite (bool_decide_eq_false_2 _ Hnd). cbn [negb]. by destruct st.
Qed.

End NoDynamite.

(** In a scenario without dynamite, whatever the actions: the blocked set
    stays the one of the configuration, the dynamite is never marked used,
    and a Clear action at the state reached stops the evaluation with the
    message that no dynamite was collected.  So a list of actions that is
    evaluated to its end, and with it the actions of every valid path, has
    no Clear action and no Move whose tile text is in the blocked list. *)
Theorem no_dynamite_no_clear (cfg : Scenario) :
  "dynamite" ∉ (sc_collectibles cfg).*1 →
  (∀ actions : list Action,
     let st := outcome_state (run_actions 0 actions (initial_state cfg)) in
     blocked_tiles (game_state st) = list_to_set (sc_blocked cfg)
     ∧ dynamite_used (game_state st) = false
     ∧ ∀ target : string,
         step_clear target st
         = Return st ("Cannot clear " +:+ target
                      +:+ " - no dynamite collected"))
  ∧ (∀ (actions : list Action) (st : Interp),
       run_actions 0 actions (initial_state cfg) = Continue st →
       clear_targets actions = []
       ∧ Forall (λ tile, tile ∉ sc_blocked cfg) (move_tiles actions))
  ∧ (∀ (path msg : string) (mp : Z) (actions : list Action),
       validate_path path cfg = (true, msg, mp) →
       parse_path path = Ok actions →
       clear_targets actions = []
       ∧ Forall (λ tile, tile ∉ sc_blocked cfg) (move_tiles actions)).
Proof.
  intros Hno. split; [|split].
  - intros actions.
    destruct (no_dynamite_state cfg Hno actions) as (Hb & Hu & Hnd).
    cbn zeta. split; [exact Hb|]. split; [exact Hu|].
    intros target. by apply clear_without_dynamite.
  - intros actions st Hrun.
    exact (no_dynamite_run cfg Hno actions 0 (initial_state cfg) st
             (state_inv_initial cfg) (clear_inv_initial cfg) Hrun).
  - intros path msg mp actions
      (actions' & st & Hpath & Hrun & _)%validate_path_true Hp.
    rewrite Hp in Hpath. injection Hpath as <-.
    exact (no_dynamite_run cfg Hno actions 0 (initial_state cfg) st
             (state_inv_initial cfg) (clear_inv_initial cfg) Hrun).
Qed.

Lemma no_dynamite_no_clear_witness :
  let cfg := mkScenario ["D2"; "C3"] [("key", "D1")] [] None in
  (∀ actions : list Action,
     let st := outcome_state (run_actions 0 actions (initial_state cfg)) in
     blocked_tiles (game_state st) = list_to_set (sc_blocked cfg)
     ∧ dynamite_used (game_state st) = false
     ∧ ∀ target : string,
         step_clear target st
         = Return st ("Cannot clear " +:+ target
                      +:+ " - no dynamite collected"))
  ∧ (∀ (actions : list Action) (st : Interp),
       run_actions 0 actions (initial_state cfg) = Continue st →
       clear_targets actions = []
       ∧ Forall (λ tile, tile ∉ sc_blocked cfg) (move_tiles actions))
  ∧ (∀ (path msg : string) (mp : Z) (actions : list Action),
       validate_path path cfg = (true, msg, mp) →
       parse_path path = Ok actions →
       clear_targets actions = []
       ∧ Forall (λ tile, tile ∉ sc_blocked cfg) (move_tiles actions)).
Proof.
  intros cfg. apply (no_dynamite_no_clear cfg). simpl. compute_done.
Defined.

(** ** Parsing a path into actions *)

Section PathElements.

Lemma split_length (sep : ascii) (s : string) :
  length (PyStr.split sep s) = S (count_char sep s).
Proof.
  induction s as [|c s IH]; [done|]. cbn [PyStr.split count_char].
  destruct (Ascii.eqb c sep); cbn [length].
  - by rewrite IH.
  - destruct (PyStr.split sep s) as [|piece pieces]; [discriminate IH|].
    exact IH.
Qed.

End PathElements.

(** A non-empty path expression parses into one action per element: one
    more than it has pipes, so never an empty list. *)
Theorem parse_path_length (path : string) :
  path ≠ EmptyString →
  ∃ actions, parse_path path = Ok actions
             ∧ length actions = S (count_char "|" path).
Proof.
  intros Hne. unfold parse_path.
  destruct (String.eqb_spec path EmptyString) as [->|_]; [done|].
  eexists. split; [reflexivity|]. by rewrite length_map, split_length.
Qed.

Lemma parse_path_length_witness :
  ∃ actions, parse_path "E1|D1:key||clear:C2" = Ok actions
             ∧ length actions = 4%nat.
Proof. apply (parse_path_length "E1|D1:key||clear:C2"). discriminate. Defined.

(** ** Responses *)

Section Responses.

Lemma strip_empty : PyStr.strip EmptyString = EmptyString.
Proof. reflexivity. Qed.

Lemma validate_path_not_parse_error (path : string) (cfg : Scenario) :
  path ≠ EmptyString → is_parse_error (validate_path path cfg).1.2 = false.
Proof.
  intros Hne. unfold validate_path, parse_path.
  destruct (String.eqb_spec path EmptyString) as [->|_]; [done|].
  destruct (run_actions _ _ _) as [st|st msg] eqn:Hrun.
  - apply final_checks_not_parse_error.
  - simpl. by eapply run_not_parse_error.
Qed.

Lemma validate_response_format_true (r : Response) (msg : string) :
  validate_response_format r = (true, msg) →
  ∃ d path analysis,
    r = RDict d ∧ dict_get "path" d = Some (VStr path)
    ∧ dict_get "analysis" d = Some (VStr analysis)
    ∧ PyStr.strip path ≠ EmptyString ∧ msg = "Valid response format".
Proof.
  unfold validate_response_format.
  destruct r as [d|b]; [|discriminate].
  destruct (dict_get "path" d) as [[path|b]|] eqn:Hp; [| |discriminate];
    (destruct (dict_get "analysis" d) as [[analysis|b']|] eqn:Ha;
     try discriminate).
  destruct (String.eqb_spec (PyStr.strip path) EmptyString); [discriminate|].
  intros [= <-]. by exists d, path, analysis.
Qed.

End Responses.

(** A response passes the format check exactly when it is a dictionary
    whose ["path"] and ["analysis"] entries are strings and whose path is
    not blank. *)
Theorem validate_response_format_accepts (r : Response) :
  (validate_response_format r).1 = true ↔
  ∃ d path analysis,
    r = RDict d ∧ dict_get "path" d = Some (VStr path)
    ∧ dict_get "analysis" d = Some (VStr analysis)
    ∧ PyStr.strip path ≠ EmptyString.
Proof.
  split.
  - destruct (validate_response_format r) as [ok msg] eqn:H. cbn.
    intros ->. apply validate_response_format_true in H
      as (d & p & a & ? & ? & ? & ? & _). by exists d, p, a.
  - intros (d & p & a & -> & Hp & Ha & Hne). cbn. rewrite Hp, Ha.
    by destruct (String.eqb_spec (PyStr.strip p) EmptyString).
Qed.

Lemma evaluate_response_facts (r : Response) (config : Scenario) :
  let e := _evaluate_response r config in
  is_valid_format e = (validate_response_format r).1
  ∧ (is_valid_format e = false →
     is_valid_path e = false ∧ eval_total_mp e = 0
     ∧ eval_is_optimal e = false)
  ∧ (is_valid_format e = true →
     ∃ d path, r = RDict d ∧ dict_get "path" d = Some (VStr path)
       ∧ (is_valid_path e, eval_total_mp e)
         = ((validate_path path config).1.1, (validate_path path config).2))
  ∧ (is_valid_path e = true → path_error e = EmptyString)
  ∧ (eval_is_optimal e = true →
     is_valid_path e = true ∧ sc_optimal_mp config = Some (eval_total_mp e))
  ∧ is_parse_error (path_error e) = false.
Proof.
  intros e. subst e. unfold _evaluate_response.
  destruct (truthy r) eqn:Ht; cbn [negb].
  - destruct (validate_response_format r) as [ok msg] eqn:Hf.
    destruct ok; cbn [negb fst].
    + apply validate_response_format_true in Hf
        as (d & p & a & -> & Hp & Ha & Hne & _).
      rewrite Hp. cbn. split; [done|]. split; [done|].
      assert (p ≠ EmptyString) as Hp0 by (intros ->; by apply Hne).
      pose proof (validate_path_not_parse_error p config Hp0) as Hpe.
      unfold validate_puzzle_solution.
      destruct (validate_path p config) as [[valid m] mp] eqn:Hv. cbn in *.
      split; [intros _; exists d, p; by rewrite Hv|].
      destruct valid; cbn.
      * split; [done|]. split; [|done].
        destruct (sc_optimal_mp config) as [o|]; [|done].
        intros ->%Z.eqb_eq. done.
      * split; [done|]. split; [done|]. exact Hpe.
    + cbn. repeat split; done.
  - assert ((validate_response_format r).1 = false) as ->.
    { destruct r as [[|]|[]]; try done. }
    cbn. repeat split; done.
Qed.

(** The evaluation of a response: the path is judged only when the format
    check passes, and then by [validate_puzzle_solution] on the ["path"]
    entry; a valid path has no error text, an optimal one is valid, a
    response that fails the format check scores 0, and the empty-path parse
    error is never reported, since a blank path fails the format check. *)
Theorem evaluate_response_flags (r : Response) (config : Scenario) :
  let e := _evaluate_response r config in
  is_valid_format e = (validate_response_format r).1
  ∧ (is_valid_format e = false →
     is_valid_path e = false ∧ eval_total_mp e = 0
     ∧ eval_is_optimal e = false)
  ∧ (is_valid_format e = true →
     ∃ d path, r = RDict d ∧ dict_get "path" d = Some (VStr path)
       ∧ (is_valid_path e, eval_total_mp e)
         = ((validate_path path config).1.1, (validate_path path config).2))
  ∧ (is_valid_path e = true → path_error e = EmptyString)
  ∧ (eval_is_optimal e = true →
     is_valid_path e = true ∧ sc_optimal_mp config = Some (eval_total_mp e))
  ∧ is_parse_error (path_error e) = false.
Proof. apply evaluate_response_facts. Qed.

(** ** The attempts of the runner *)

Section RunnerFacts.

Variable send_message : nat → Response.
Variable config : Scenario.

Lemma valid_path_valid_format (r : Response) :
  is_valid_path (_evaluate_response r config) = true →
  is_valid_format (_evaluate_response r config) = true.
Proof.
  destruct (evaluate_response_facts r config) as (_ & Hf & _).
  destruct (is_valid_format _); [done|]. intros Hv.
  destruct (Hf eq_refl) as [Hp _]. congruence.
Qed.

(** Only a response that is true and is no dictionary raises. *)
Lemma raises_on_get_true (r : Response) :
  raises_on_get r = true ↔ r = ROther true.
Proof. destruct r as [[|[k v] d]|[]]; cbn; split; congruence. Qed.

(** What the first loop leaves.  The interactions it added before the last
    are fewer than [n] and all invalid; it returns on an optimal last one,
    falls through on a valid last one that is not optimal or after [n]
    invalid ones, and is left by the [AttributeError] with the invalid ones
    recorded so far. *)
Lemma retry_loop_exit (n : nat) (interactions : list Evaluation) :
  n ≠ O →
  ∃ earlier,
    (length earlier < n)%nat
    ∧ Forall (λ e, is_valid_path e = false) earlier
    ∧ match retry_loop send_message config n interactions with
      | Returned final_result interactions' =>
          ∃ e, interactions' = interactions ++ earlier ++ [e]
               ∧ is_valid_path e = true ∧ eval_is_optimal e = true
               ∧ final_result
                 = mkFinalResult true true (Some (eval_total_mp e))
      | FellThrough interactions' =>
          ∃ e, interactions' = interactions ++ earlier ++ [e]
               ∧ eval_is_optimal e = false
               ∧ (is_valid_path e = false → S (length earlier) = n)
      | Raised interactions' => interactions' = interactions ++ earlier
      end.
Proof.
  revert interactions. induction n as [|n IH]; intros interactions Hn;
    [done|]. cbn [retry_loop].
  set (e := _evaluate_response (send_message (length interactions)) config).
  destruct (raises_on_get (send_message (length interactions))).
  { exists []. split; [simpl; lia|]. split; [constructor|].
    by rewrite (right_id_L [] (++)). }
  destruct (is_valid_path e) eqn:Hv.
  - assert (is_valid_format e = true) as ->
      by (by apply valid_path_valid_format).
    cbn [andb].
    exists []. split; [simpl; lia|]. split; [constructor|].
    destruct (eval_is_optimal e) eqn:Ho; exists e; repeat split; try done.
    intros ?; congruence.
  - rewrite andb_false_r. destruct n as [|n'].
    + exists []. split; [simpl; lia|]. split; [constructor|].
      cbn [retry_loop]. exists e. repeat split; try done.
      destruct (evaluate_response_facts
                  (send_message (length interactions)) config)
        as (_ & _ & _ & _ & Ho & _).
      fold e in Ho. destruct (eval_is_optimal e); [|done].
      destruct (Ho eq_refl) as [Hv' _]. congruence.
    + destruct (IH (interactions ++ [e]) (ltac:(done)))
        as (earlier & Hlen & Hall & Hexit).
      exists (e :: earlier). split; [simpl; lia|].
      split; [by constructor|].
      destruct (retry_loop send_message config (S n') (interactions ++ [e]))
        as [fr ints|ints|ints].
      * destruct Hexit as (e' & -> & ? & ? & ->). exists e'.
        by rewrite <- (assoc_L (++)).
      * destruct Hexit as (e' & -> & ? & Hl). exists e'.
        rewrite <- (assoc_L (++)). repeat split; try done.
        intros Hv'. simpl. by rewrite (Hl Hv').
      * rewrite Hexit. by rewrite <- (assoc_L (++)).
Qed.

(** What the loop over the hints leaves: at most one interaction per hint;
    it returns on the first valid and optimal one, falls through after one
    interaction per hint, none of them valid and optimal, and is left by
    the [AttributeError] with fewer interactions than hints. *)
Lemma hint_loop_exit (hints : list string) (interactions : list Evaluation) :
  ∃ added,
    (length added ≤ length hints)%nat
    ∧ match hint_loop send_message config hints interactions with
      | Returned final_result interactions' =>
          ∃ earlier e,
            added = earlier ++ [e]
            ∧ interactions' = interactions ++ added
            ∧ is_valid_path e = true ∧ eval_is_optimal e = true
            ∧ final_result = mkFinalResult true true (Some (eval_total_mp e))
      | FellThrough interactions' =>
          interactions' = interactions ++ added
          ∧ length added = length hints
      | Raised interactions' =>
          interactions' = interactions ++ added
          ∧ (length added < length hints)%nat
      end.
Proof.
  revert interactions. induction hints as [|h hints IH]; intros interactions.
  - exists []. split; [done|]. cbn. by rewrite (right_id_L [] (++)).
  - cbn [hint_loop].
    set (e := _evaluate_response (send_message (length interactions)) config).
    destruct (raises_on_get (send_message (length interactions))).
    { exists []. split; [simpl; lia|]. rewrite (right_id_L [] (++)).
      split; [done|]. simpl; lia. }
    destruct (is_valid_path e && eval_is_optimal e) eqn:Hvo.
    + apply andb_true_iff in Hvo as [Hv Ho].
      exists [e]. split; [simpl; lia|]. by exists [], e.
    + destruct (IH (interactions ++ [e])) as (added & Hlen & Hexit).
      exists (e :: added). split; [simpl; lia|].
      destruct (hint_loop send_message config hints (interactions ++ [e]))
        as [fr ints|ints|ints].
      * destruct Hexit as (earlier & e' & -> & -> & ? & ? & ->).
        exists (e :: earlier), e'. rewrite <- (assoc_L (++)). done.
      * destruct Hexit as (-> & Hl). rewrite <- (assoc_L (++)).
        split; [done|]. simpl. by rewrite Hl.
      * destruct Hexit as (-> & Hl). rewrite <- (assoc_L (++)).
        split; [done|]. simpl. lia.
Qed.

Lemma max_by_total_spec (candidates : list Evaluation)
    (best : option Evaluation) :
  match max_by_total best candidates with
  | Some b =>
      (Some b = best ∨ b ∈ candidates)
      ∧ (∀ e, e ∈ candidates → eval_total_mp e ≤ eval_total_mp b)
      ∧ (∀ b0, best = Some b0 → eval_total_mp b0 ≤ eval_total_mp b)
  | None => best = None ∧ candidates = []
  end.
Proof.
  revert best. induction candidates as [|e rest IH]; intros best; simpl.
  - destruct best as [b|]; [|done]. split; [by left|].
    split; [by intros ? ?%elem_of_nil|]. by intros ? [= ->].
  - destruct best as [b|].
    + destruct (Z.ltb_spec (eval_total_mp b) (eval_total_mp e)).
      * specialize (IH (Some e)).
        destruct (max_by_total (Some e) rest) as [b'|]; [|by destruct IH].
        destruct IH as (Hin & Hmax & Hbest). specialize (Hbest e eq_refl).
        split; [right; destruct Hin as [[= ->]|?]; [left|by right]; done|].
        split.
        -- intros e' [->|?]%elem_of_cons; [done|by apply Hmax].
        -- intros ? [= <-]. lia.
      * specialize (IH (Some b)).
        destruct (max_by_total (Some b) rest) as [b'|]; [|by destruct IH].
        destruct IH as (Hin & Hmax & Hbest). specialize (Hbest b eq_refl).
        split; [destruct Hin as [?|?]; [by left|right; by right]|].
        split.
        -- intros e' [->|?]%elem_of_cons; [lia|by apply Hmax].
        -- by intros ? [= <-].
    + specialize (IH (Some e)).
      destruct (max_by_total (Some e) rest) as [b'|]; [|by destruct IH].
      destruct IH as (Hin & Hmax & Hbest). specialize (Hbest e eq_refl).
      split; [right; destruct Hin as [[= ->]|?]; [left|by right]; done|].
      split; [|done].
      intros e' [->|?]%elem_of_cons; [done|by apply Hmax].
Qed.

End RunnerFacts.

Section RunnerResult.

Variable send_message : nat → Response.
Variable config : Scenario.

Lemma optimal_total (r : Response) :
  eval_is_optimal (_evaluate_response r config) = true →
  sc_optimal_mp config
  = Some (eval_total_mp (_evaluate_response r config)).
Proof.
  destruct (evaluate_response_facts r config) as (_ & _ & _ & _ & Ho & _).
  intros H. by destruct (Ho H).
Qed.

Lemma evaluations_snoc (n : nat) :
  evaluations send_message config (S n)
  = evaluations send_message config n
    ++ [_evaluate_response (send_message n) config].
Proof. unfold evaluations. by rewrite seq_S, map_app. Qed.

(** One more interaction keeps the record in step with the responses. *)
Lemma trace_snoc (interactions : list Evaluation) :
  interactions = evaluations send_message config (length interactions) →
  (∀ k, (k < length interactions)%nat →
        raises_on_get (send_message k) = false) →
  raises_on_get (send_message (length interactions)) = false →
  let interactions' :=
    interactions
    ++ [_evaluate_response (send_message (length interactions)) config] in
  interactions' = evaluations send_message config (length interactions')
  ∧ ∀ k, (k < length interactions')%nat →
         raises_on_get (send_message k) = false.
Proof.
  intros H Hno Hr. cbn zeta. rewrite length_app. simpl.
  rewrite Nat.add_1_r, evaluations_snoc. split; [by rewrite <- H|].
  intros k Hk. destruct (decide (k = length interactions)) as [->|];
    [done|]. apply Hno. lia.
Qed.

(** The interactions a loop leaves are the evaluations of the responses to
    its calls, in order, none of which raised; when the loop is left by the
    [AttributeError], the next response is the one that raised. *)
Lemma retry_loop_trace (n : nat) (interactions : list Evaluation) :
  interactions = evaluations send_message config (length interactions) →
  (∀ k, (k < length interactions)%nat →
        raises_on_get (send_message k) = false) →
  match retry_loop send_message config n interactions with
  | Returned _ l =>
      l = evaluations send_message config (length l)
      ∧ ∀ k, (k < length l)%nat → raises_on_get (send_message k) = false
  | FellThrough l =>
      l = evaluations send_message config (length l)
      ∧ ∀ k, (k < length l)%nat → raises_on_get (send_message k) = false
  | Raised l =>
      l = evaluations send_message config (length l)
      ∧ (∀ k, (k < length l)%nat → raises_on_get (send_message k) = false)
      ∧ raises_on_get (send_message (length l)) = true
  end.
Proof.
  revert interactions. induction n as [|n IH]; intros interactions H Hno;
    [done|]. cbn [retry_loop].
  destruct (raises_on_get (send_message (length interactions))) eqn:Hr;
    [done|].
  destruct (trace_snoc interactions H Hno Hr) as [H' Hno'].
  destruct (is_valid_format _ && is_valid_path _);
    [by destruct (eval_is_optimal _)|]. by apply IH.
Qed.

Lemma hint_loop_trace (hints : list string)
    (interactions : list Evaluation) :
  interactions = evaluations send_message config (length interactions) →
  (∀ k, (k < length interactions)%nat →
        raises_on_get (send_message k) = false) →
  match hint_loop send_message config hints interactions with
  | Returned _ l =>
      l = evaluations send_message config (length l)
      ∧ ∀ k, (k < length l)%nat → raises_on_get (send_message k) = false
  | FellThrough l =>
      l = evaluations send_message config (length l)
      ∧ ∀ k, (k < length l)%nat → raises_on_get (send_message k) = false
  | Raised l =>
      l = evaluations send_message config (length l)
      ∧ (∀ k, (k < length l)%nat → raises_on_get (send_message k) = false)
      ∧ raises_on_get (send_message (length l)) = true
  end.
Proof.
  revert interactions. induction hints as [|h hints IH];
    intros interactions H Hno; [done|]. cbn [hint_loop].
  destruct (raises_on_get (send_message (length interactions))) eqn:Hr;
    [done|].
  destruct (trace_snoc interactions H Hno Hr) as [H' Hno'].
  destruct (is_valid_path _ && eval_is_optimal _); [done|]. by apply IH.
Qed.

Lemma run_scenario_trace (hints : list string) :
  match _run_scenario_for_model send_message config hints with
  | Finished _ ints =>
      ints = evaluations send_message config (length ints)
      ∧ ∀ k, (k < length ints)%nat → raises_on_get (send_message k) = false
  | AttributeError ints =>
      ints = evaluations send_message config (length ints)
      ∧ (∀ k, (k < length ints)%nat →
              raises_on_get (send_message k) = false)
      ∧ raises_on_get (send_message (length ints)) = true
  end.
Proof.
  unfold _run_scenario_for_model.
  pose proof (retry_loop_trace 4 [] eq_refl
                ltac:(intros k Hk; simpl in Hk; lia)) as H1.
  destruct (retry_loop send_message config 4 []) as [fr ints|ints|ints];
    [exact H1| |exact H1].
  destruct (last ints) as [e|]; [|exact H1].
  destruct (is_valid_path e); cbn [negb]; [|exact H1].
  destruct H1 as [H1 Hno1].
  pose proof (hint_loop_trace hints ints H1 Hno1) as H2.
  destruct (hint_loop send_message config hints ints)
    as [fr ints'|ints'|ints']; [exact H2| |exact H2].
  by destruct (max_by_total None _).
Qed.

Lemma run_scenario_facts (hints : list string) :
  match _run_scenario_for_model send_message config hints with
  | Finished fr ints =>
      (1 ≤ length ints ≤ 4 + length hints)%nat
      ∧ (success fr = false →
         final_is_optimal fr = false ∧ final_total_mp fr = None
         ∧ length ints = 4%nat ∧ Forall (λ e, is_valid_path e = false) ints)
      ∧ (final_is_optimal fr = true →
         success fr = true
         ∧ ∃ e, last ints = Some e ∧ is_valid_path e = true
                ∧ eval_is_optimal e = true
                ∧ final_total_mp fr = Some (eval_total_mp e))
      ∧ (success fr = true → final_is_optimal fr = false →
         ∃ best, best ∈ ints ∧ is_valid_path best = true
                 ∧ final_total_mp fr = Some (eval_total_mp best)
                 ∧ ∀ e, e ∈ ints → is_valid_path e = true →
                        eval_total_mp e ≤ eval_total_mp best)
  | AttributeError ints =>
      (length ints < 4 + length hints)%nat
      ∧ (Forall (λ e, is_valid_path e = false) ints →
         (length ints < 4)%nat)
  end.
Proof.
  unfold _run_scenario_for_model.
  destruct (retry_loop_exit send_message config 4 [] ltac:(done))
    as (earlier & Hlen & Hall & Hexit).
  destruct (retry_loop send_message config 4 []) as [fr ints|ints|ints].
  { destruct Hexit as (e & -> & Hv & Ho & ->). cbn.
    rewrite length_app. simpl. split; [lia|]. split; [done|].
    split; [|done]. intros _. split; [done|]. exists e.
    by rewrite last_snoc. }
  2:{ cbn in Hexit. subst ints. split; [lia|]. intros _; lia. }
  destruct Hexit as (e & -> & Ho & Hfull). cbn [app].
  rewrite last_snoc. destruct (is_valid_path e) eqn:Hv; cbn [negb].
  - destruct (hint_loop_exit send_message config hints (earlier ++ [e]))
      as (added & Hadd & Hexit).
    destruct (hint_loop send_message config hints (earlier ++ [e]))
      as [fr ints|ints|ints].
    { destruct Hexit as (before & e' & -> & -> & Hv' & Ho' & ->). cbn.
      rewrite !length_app in *. simpl in *. split; [lia|]. split; [done|].
      split; [|done]. intros _. split; [done|]. exists e'.
      by rewrite (assoc_L (++)), last_snoc. }
    2:{ destruct Hexit as (-> & Hl). rewrite !length_app. simpl.
        split; [lia|]. intros Hinv. exfalso.
        rewrite Forall_forall in Hinv. rewrite Hinv in Hv; [done|].
        apply elem_of_app. left. apply elem_of_app. right. by left. }
    destruct Hexit as (-> & Hl).
    pose proof (max_by_total_spec
                  (filter (λ e, is_valid_path e = true)
                     ((earlier ++ [e]) ++ added)) None) as Hmax.
    destruct (max_by_total None _) as [best|].
    + destruct Hmax as ([[=]|Hin] & Hge & _). cbn.
      rewrite !length_app in *. simpl in *. split; [lia|]. split; [done|].
      split; [done|]. intros _ _.
      apply list_elem_of_filter in Hin as [Hbv Hbin].
      exists best. repeat split; try done.
      intros e' Hin' Hv'. apply Hge. by apply list_elem_of_filter.
    + destruct Hmax as [_ Hnil]. exfalso.
      assert (e ∈ filter (λ e, is_valid_path e = true)
                    ((earlier ++ [e]) ++ added)) as Hin.
      { apply list_elem_of_filter. split; [done|].
        apply elem_of_app. left. apply elem_of_app. right. by left. }
      rewrite Hnil in Hin. by apply elem_of_nil in Hin.
  - cbn. rewrite length_app. simpl. specialize (Hfull eq_refl).
    split; [lia|]. split; [|done]. intros _.
    repeat split; try done; [lia|].
    apply Forall_app. split; [done|]. by constructor.
Qed.

End RunnerResult.

(** A run on one scenario ends in one of two ways.  It raises the
    [AttributeError] exactly at the first response that is true and is no
    dictionary, before that interaction is recorded and after fewer than
    4 + (number of hints) recorded ones.  Otherwise it finishes after
    between 1 and 4 + (number of hints) calls, and reports a failure exactly
    when the first four responses are all invalid; then no hint is tried and
    no total is reported.  In both cases the interactions are the
    evaluations of the responses, in order. *)
Theorem run_scenario_failure (send_message : nat → Response)
    (config : Scenario) (hints : list string) :
  match _run_scenario_for_model send_message config hints with
  | AttributeError interactions =>
      (length interactions < 4 + length hints)%nat
      ∧ interactions
        = evaluations send_message config (length interactions)
      ∧ send_message (length interactions) = ROther true
      ∧ (∀ k, (k < length interactions)%nat →
              send_message k ≠ ROther true)
      ∧ (Forall (λ e, is_valid_path e = false) interactions →
         (length interactions < 4)%nat)
  | Finished final_result interactions =>
      (1 ≤ length interactions ≤ 4 + length hints)%nat
      ∧ interactions
        = evaluations send_message config (length interactions)
      ∧ (∀ k, (k < length interactions)%nat →
              send_message k ≠ ROther true)
      ∧ (success final_result = false ↔
         length interactions = 4%nat
         ∧ Forall (λ e, is_valid_path e = false) interactions)
      ∧ (success final_result = false →
         final_is_optimal final_result = false
         ∧ final_total_mp final_result = None)
  end.
Proof.
  pose proof (run_scenario_facts send_message config hints) as Hfacts.
  pose proof (run_scenario_trace send_message config hints) as Htrace.
  destruct (_run_scenario_for_model send_message config hints)
    as [fr ints|ints].
  - destruct Hfacts as (Hlen & Hfail & Hopt & Hbest).
    destruct Htrace as [Hev Hno].
    split; [exact Hlen|]. split; [exact Hev|]. split.
    { intros k Hk Hr. apply raises_on_get_true in Hr.
      by rewrite (Hno k Hk) in Hr. }
    split; [split|].
    + intros H. by destruct (Hfail H) as (_ & _ & ? & ?).
    + intros [_ Hall]. destruct (success fr) eqn:Hs; [|done]. exfalso.
      rewrite Forall_forall in Hall.
      destruct (final_is_optimal fr) eqn:Ho.
      * destruct (Hopt eq_refl) as (_ & e & Hl & Hv & _).
        apply last_Some in Hl as [l' Hl]. specialize (Hall e).
        rewrite Hl in Hall. rewrite Hall in Hv; [done|].
        apply elem_of_app. right. by left.
      * destruct (Hbest eq_refl eq_refl) as (b & Hin & Hv & _).
        by rewrite (Hall b Hin) in Hv.
    + intros H. by destruct (Hfail H) as (? & ? & _).
  - destruct Hfacts as [Hlen Hinv]. destruct Htrace as (Hev & Hno & Hr).
    split; [exact Hlen|]. split; [exact Hev|].
    split; [by apply raises_on_get_true|]. split; [|exact Hinv].
    intros k Hk Hr'. apply raises_on_get_true in Hr'.
    by rewrite (Hno k Hk) in Hr'.
Qed.

(** A client whose second answer is a JSON list: the run records the first
    interaction and is left by the [AttributeError]. *)
Example run_scenario_list_response :
  _run_scenario_for_model list_send_message sample_config ["hint"]
  = AttributeError
      [_evaluate_response (ROther false) sample_config].
Proof. vm_compute. reflexivity. Qed.

(** A run that finishes reports an optimal solution only for its last
    interaction, which is then valid and optimal, with the total of that
    interaction, which is the optimal cost the scenario declares. *)
Theorem run_scenario_optimal (send_message : nat → Response)
    (config : Scenario) (hints : list string)
    (final_result : FinalResult) (interactions : list Evaluation) :
  _run_scenario_for_model send_message config hints
  = Finished final_result interactions →
  final_is_optimal final_result = true →
  success final_result = true
  ∧ ∃ e, last interactions = Some e
         ∧ is_valid_path e = true ∧ eval_is_optimal e = true
         ∧ final_total_mp final_result = Some (eval_total_mp e)
         ∧ sc_optimal_mp config = Some (eval_total_mp e).
Proof.
  intros Hrun H.
  pose proof (run_scenario_facts send_message config hints) as Hfacts.
  pose proof (run_scenario_trace send_message config hints) as Htrace.
  rewrite Hrun in Hfacts, Htrace.
  destruct Hfacts as (_ & _ & Hopt & _). destruct Htrace as [He _].
  destruct (Hopt H) as (Hs & e & Hl & Hv & Ho & Ht).
  split; [exact Hs|]. exists e. repeat split; try done.
  apply last_Some in Hl as [l' Hl].
  assert (e ∈ evaluations send_message config (length interactions))
    as Hin.
  { rewrite <- He, Hl. apply elem_of_app. right. by left. }
  apply list_elem_of_fmap in Hin as (k & -> & _).
  by apply optimal_total.
Qed.

Lemma run_scenario_optimal_witness :
  ∃ final_result e,
    _run_scenario_for_model (λ _, sample_answer "E1|D1|D1:key|C1|B1|A1")
      (mkScenario [] [("key", "D1")] ["key"] (Some 8)) ["hint"]
    = Finished final_result [e]
    ∧ success final_result = true
    ∧ ∃ e', last [e] = Some e'
            ∧ is_valid_path e' = true ∧ eval_is_optimal e' = true
            ∧ final_total_mp final_result = Some (eval_total_mp e')
            ∧ Some 8 = Some (eval_total_mp e').
Proof.
  eexists _, _. split; [vm_compute; reflexivity|].
  eapply (run_scenario_optimal (λ _, sample_answer "E1|D1|D1:key|C1|B1|A1")
            (mkScenario [] [("key", "D1")] ["key"] (Some 8)) ["hint"]);
    vm_compute; reflexivity.
Defined.

(** When a run finishes with valid answers none of which is optimal,
    the total it reports is the greatest total among its valid
    interactions. *)
Theorem run_scenario_reports_greatest_total (send_message : nat → Response)
    (config : Scenario) (hints : list string)
    (final_result : FinalResult) (interactions : list Evaluation) :
  _run_scenario_for_model send_message config hints
  = Finished final_result interactions →
  success final_result = true → final_is_optimal final_result = false →
  ∃ best, best ∈ interactions ∧ is_valid_path best = true
          ∧ final_total_mp final_result = Some (eval_total_mp best)
          ∧ ∀ e, e ∈ interactions → is_valid_path e = true →
                 eval_total_mp e ≤ eval_total_mp best.
Proof.
  intros Hrun.
  pose proof (run_scenario_facts send_message config hints) as Hfacts.
  rewrite Hrun in Hfacts. destruct Hfacts as (_ & _ & _ & Hbest).
  exact Hbest.
Qed.

Lemma run_scenario_reports_greatest_total_witness :
  ∃ final_result interactions,
    _run_scenario_for_model sample_send_message sample_config ["hint"]
    = Finished final_result interactions
    ∧ map eval_total_mp interactions = [9; 8]
    ∧ final_total_mp final_result = Some 9
    ∧ ∃ best, best ∈ interactions ∧ is_valid_path best = true
              ∧ final_total_mp final_result = Some (eval_total_mp best)
              ∧ ∀ e, e ∈ interactions → is_valid_path e = true →
                     eval_total_mp e ≤ eval_total_mp best.
Proof.
  eexists _, _. split; [vm_compute; reflexivity|].
  split; [vm_compute; reflexivity|]. split; [vm_compute; reflexivity|].
  eapply (run_scenario_reports_greatest_total sample_send_message
            sample_config ["hint"]); vm_compute; reflexivity.
Defined.

(** ** Rings *)

Section Rings.

Lemma ring_neighbours_upto_32 (l : ascii) (cap : Z) :
  LEVEL_MAX l = Some cap →
  Forall (λ n, n ≤ cap →
            is_valid_move (tile_text l n) (tile_text l (n `mod` cap + 1))
            = (true, "clockwise", 1)
            ∧ (1 < cap →
               is_valid_move (tile_text l (n `mod` cap + 1)) (tile_text l n)
               = (true, "counter_clockwise", 1)))
         (seqZ 1 32).
Proof.
  intros H.
  destruct (level_max_cases l cap H)
    as [[-> ->]|[[-> ->]|[[-> ->]|[[-> ->]|[-> ->]]]]].
  all: let l := eval vm_compute in (seqZ 1 32) in change (seqZ 1 32) with l.
  all: repeat (constructor;
               [intros Hle;
                first [ exfalso; lia
                      | split; [vm_compute; reflexivity
                               |intros Hc;
                                first [exfalso; lia
                                      |vm_compute; reflexivity]] ]|]).
  all: constructor.
Qed.

End Rings.

(** On every ring the step to the next index, wrapping from the last tile
    to the first, is a clockwise move of cost 1, and on a ring of more than
    one tile the step back is a counter-clockwise move of cost 1. *)
Theorem ring_neighbours (l : ascii) (n cap : Z) :
  LEVEL_MAX l = Some cap → 1 ≤ n ≤ cap →
  is_valid_move (tile_text l n) (tile_text l (n `mod` cap + 1))
  = (true, "clockwise", 1)
  ∧ (1 < cap →
     is_valid_move (tile_text l (n `mod` cap + 1)) (tile_text l n)
     = (true, "counter_clockwise", 1)).
Proof.
  intros Hl Hn.
  assert (cap ≤ 32) as Hcap
    by (destruct (level_max_cases l cap Hl)
          as [[_ ->]|[[_ ->]|[[_ ->]|[[_ ->]|[_ ->]]]]]; lia).
  apply (Forall_seqZ _ 1 32 (ring_neighbours_upto_32 l cap Hl) n); lia.
Qed.

Lemma ring_neighbours_witness :
  is_valid_move "E32" "E1" = (true, "clockwise", 1)
  ∧ (1 < 32 → is_valid_move "E1" "E32" = (true, "counter_clockwise", 1)).
Proof. apply (ring_neighbours "E" 32 32); [reflexivity|lia]. Defined.

(** ** White space around the elements of a path *)

Section Padding.

Lemma append_cons (c : ascii) (s t : string) :
  String c s +:+ t = String c (s +:+ t).
Proof. reflexivity. Qed.

Lemma append_assoc (s t u : string) : (s +:+ t) +:+ u = s +:+ t +:+ u.
Proof.
  induction s as [|c s IH]; [done|]. rewrite !append_cons. by rewrite IH.
Qed.

Lemma rev_app_rev (s acc : string) :
  String.rev_app s acc = String.rev s +:+ acc.
Proof.
  unfold String.rev. revert acc. induction s as [|c s IH]; intros acc;
    [done|]. cbn [String.rev_app].
  rewrite (IH (String c acc)), (IH (String c EmptyString)).
  by rewrite append_assoc.
Qed.

Lemma rev_append (s t : string) :
  String.rev (s +:+ t) = String.rev t +:+ String.rev s.
Proof.
  unfold String.rev at 1. rewrite rev_app_append.
  by rewrite rev_app_rev.
Qed.

Lemma all_space_append (s t : string) :
  all_space (s +:+ t) = all_space s && all_space t.
Proof.
  induction s as [|c s IH]; [done|]. rewrite append_cons. cbn [all_space].
  by rewrite IH, andb_assoc.
Qed.

Lemma all_space_rev (s : string) : all_space (String.rev s) = all_space s.
Proof.
  induction s as [|c s IH]; [done|].
  unfold String.rev. cbn [String.rev_app]. rewrite rev_app_rev.
  rewrite all_space_append, IH. cbn [all_space].
  by rewrite andb_true_r, andb_comm.
Qed.

Lemma lstrip_spaces (ws s : string) :
  all_space ws = true → PyStr.lstrip (ws +:+ s) = PyStr.lstrip s.
Proof.
  induction ws as [|c ws IH]; [done|]. cbn [all_space].
  intros [Hc Hws]%andb_true_iff. rewrite append_cons. cbn [PyStr.lstrip].
  rewrite Hc. by apply IH.
Qed.

Lemma lstrip_all_space (ws : string) :
  all_space ws = true → PyStr.lstrip ws = EmptyString.
Proof.
  intros H. rewrite <- (append_empty_r ws). by rewrite lstrip_spaces.
Qed.

Lemma rstrip_spaces (s ws : string) :
  all_space ws = true → PyStr.rstrip (s +:+ ws) = PyStr.rstrip s.
Proof.
  intros H. unfold PyStr.rstrip. rewrite rev_append, lstrip_spaces; [done|].
  by rewrite all_space_rev.
Qed.

Lemma lstrip_append (s t : string) :
  PyStr.lstrip (s +:+ t)
  = match PyStr.lstrip s with
    | EmptyString => PyStr.lstrip t
    | String _ _ => PyStr.lstrip s +:+ t
    end.
Proof.
  induction s as [|c s IH]; [done|]. rewrite append_cons.
  cbn [PyStr.lstrip]. destruct (PyStr.isspace c); [exact IH|done].
Qed.

Lemma strip_padding (ws1 ws2 s : string) :
  all_space ws1 = true → all_space ws2 = true →
  PyStr.strip (ws1 +:+ s +:+ ws2) = PyStr.strip s.
Proof.
  intros H1 H2. unfold PyStr.strip.
  rewrite (lstrip_spaces ws1 _ H1), lstrip_append.
  destruct (PyStr.lstrip s) as [|c s'] eqn:Hs.
  - by rewrite (lstrip_all_space ws2 H2).
  - by rewrite rstrip_spaces.
Qed.

End Padding.

(** White space around an element of a path expression is ignored: the
    padded element parses to the same action. *)
Theorem parse_element_ignores_padding (ws1 ws2 element : string) :
  all_space ws1 = true → all_space ws2 = true →
  parse_element (ws1 +:+ element +:+ ws2) = parse_element element.
Proof.
  intros H1 H2. unfold parse_element. by rewrite (strip_padding ws1 ws2).
Qed.

Lemma parse_element_ignores_padding_witness :
  parse_element "  D1:key  " = Collect "D1" "key".
Proof.
  apply (parse_element_ignores_padding "  " "  " "D1:key"); reflexivity.
Defined.

(** ** Failure is final *)

Section Prefix.

Lemma split_append (sep : ascii) (s t : string) :
  PyStr.split sep (s +:+ String sep t)
  = PyStr.split sep s ++ PyStr.split sep t.
Proof.
  induction s as [|c s IH].
  - change (EmptyString +:+ String sep t) with (String sep t).
    cbn [PyStr.split]. by rewrite Ascii.eqb_refl.
  - rewrite append_cons. cbn [PyStr.split]. rewrite IH.
    destruct (Ascii.eqb c sep); [done|].
    pose proof (split_length sep s) as Hl.
    by destruct (PyStr.split sep s).
Qed.

Lemma parse_path_append (p1 p2 : string) (actions1 : list Action) :
  parse_path p1 = Ok actions1 →
  parse_path (p1 +:+ String "|" p2)
  = Ok (actions1 ++ map parse_element (PyStr.split "|" p2)).
Proof.
  unfold parse_path.
  destruct (String.eqb_spec p1 EmptyString) as [->|Hne]; [discriminate|].
  intros [= <-].
  destruct (String.eqb_spec (p1 +:+ String "|" p2) EmptyString) as [He|_].
  - destruct p1; discriminate He.
  - by rewrite split_append, map_app.
Qed.

End Prefix.

(** Once an action of a path fails, what follows does not matter: the path
    continued by further elements gets the same verdict, message and
    total. *)
Theorem failure_is_final (p1 p2 : string) (cfg : Scenario)
    (actions1 : list Action) (st : Interp) (msg : string) :
  parse_path p1 = Ok actions1 →
  run_actions 0 actions1 (initial_state cfg) = Return st msg →
  validate_path (p1 +:+ String "|" p2) cfg = (false, msg, total_mp st)
  ∧ validate_path p1 cfg = (false, msg, total_mp st).
Proof.
  intros Hp Hrun. unfold validate_path.
  rewrite (parse_path_append p1 p2 actions1 Hp), Hp.
  by rewrite run_actions_app, Hrun.
Qed.

Lemma failure_is_final_witness :
  let cfg := mkScenario ["D1"] [] [] None in
  validate_path ("E1|D1" +:+ String "|" "C1|B1|A1") cfg
  = (false, "Cannot move to blocked tile D1 at step 2", 0)
  ∧ validate_path "E1|D1" cfg
    = (false, "Cannot move to blocked tile D1 at step 2", 0).
Proof.
  intros cfg.
  apply (failure_is_final "E1|D1" "C1|B1|A1" cfg [Move "E1"; Move "D1"]
           (outcome_state
              (run_actions 0 [Move "E1"; Move "D1"] (initial_state cfg)))
           "Cannot move to blocked tile D1 at step 2").
  - reflexivity.
  - vm_compute. reflexivity.
Defined.

(** Tile parsing fails in three ways only: with the format error, exactly
    when the text does not match the pattern; with the refusal by [int] of
    more digits than its limit, on a matching text that long; and with the
    range error on the other matching texts.  The branch for an unknown
    level and an invalid literal for [int] are never reached. *)
Theorem parse_tile_failures (s msg : string) :
  parse_tile s = Raise msg →
  (re_match_tile s = false ∧ msg = "Invalid tile format: " +:+ s)
  ∨ (re_match_tile s = true
     ∧ ∃ l rest,
         s = String l rest
         ∧ PyStr.int_max_str_digits
           < Z.of_nat (String.length (PyStr.strip rest))
         ∧ msg = PyStr.int_limit_error
                   (Z.of_nat (String.length (PyStr.strip rest))))
  ∨ (re_match_tile s = true
     ∧ ∃ l rest n,
         s = String l rest
         ∧ Z.of_nat (String.length (PyStr.strip rest))
           ≤ PyStr.int_max_str_digits
         ∧ msg = "Invalid tile number " +:+ PyStr.str n
                 +:+ " for level " +:+ String l EmptyString).
Proof. apply parse_tile_raises. Qed.

Lemma parse_tile_failures_witness :
  parse_tile "E0" = Raise "Invalid tile number 0 for level E"
  ∧ ((re_match_tile "E0" = false
      ∧ "Invalid tile number 0 for level E" = "Invalid tile format: " +:+ "E0")
     ∨ (re_match_tile "E0" = true
        ∧ ∃ l rest,
            "E0" = String l rest
            ∧ PyStr.int_max_str_digits
              < Z.of_nat (String.length (PyStr.strip rest))
            ∧ "Invalid tile number 0 for level E"
              = PyStr.int_limit_error
                  (Z.of_nat (String.length (PyStr.strip rest))))
     ∨ (re_match_tile "E0" = true
        ∧ ∃ l rest n,
            "E0" = String l rest
            ∧ Z.of_nat (String.length (PyStr.strip rest))
              ≤ PyStr.int_max_str_digits
            ∧ "Invalid tile number 0 for level E"
              = "Invalid tile number " +:+ PyStr.str n
                +:+ " for level " +:+ String l EmptyString)).
Proof.
  split; [reflexivity|].
  apply (parse_tile_failures "E0" "Invalid tile number 0 for level E").
  reflexivity.
Defined.

(** A tile text of 4301 digits is refused by [int], before the range check,
    and so names no tile a move could start from or reach. *)
Example parse_tile_long_text :
  parse_tile long_tile_text = Raise (PyStr.int_limit_error 4301)
  ∧ is_valid_move long_tile_text "E1" = (false, "invalid_tile", 0).
Proof. split; vm_compute; reflexivity. Qed.

(** ** Which item a tile gives *)

Section FirstAvailable.

Lemma collect_scan_first (items : list (string * string)) (tile : string)
    (gs : GameState) :
  match collect_scan items tile gs with
  | (Some it, gs') =>
      gs' = mark_collected it gs
      ∧ (it ∉ collected_items gs)
      ∧ ∃ l1 l2,
          items = l1 ++ (it, tile) :: l2
          ∧ Forall (λ p, p.2 ≠ tile ∨ p.1 ∈ collected_items gs) l1
  | (None, gs') =>
      gs' = gs
      ∧ Forall (λ p, p.2 ≠ tile ∨ p.1 ∈ collected_items gs) items
  end.
Proof.
  induction items as [|[item_type location] rest IH]; simpl; [done|].
  destruct (decide (location = tile)) as [->|Hloc].
  - destruct (decide (item_type ∈ collected_items gs)) as [Hin|Hout].
    + rewrite bool_decide_eq_true_2 by done.
      rewrite (bool_decide_eq_false_2 (item_type ∉ _)) by tauto. cbn [andb].
      destruct (collect_scan rest tile gs) as [[it|] gs'].
      * destruct IH as (-> & Hn & l1 & l2 & -> & Hall).
        repeat split; [done|]. exists ((item_type, tile) :: l1), l2.
        split; [done|]. constructor; [by right|done].
      * destruct IH as [-> Hall]. split; [done|].
        constructor; [by right|done].
    + rewrite !bool_decide_eq_true_2 by done. cbn [andb].
      repeat split; [done|]. by exists [], rest.
  - rewrite (bool_decide_eq_false_2 (location = tile)) by done. cbn [andb].
    destruct (collect_scan rest tile gs) as [[it|] gs'].
    + destruct IH as (-> & Hn & l1 & l2 & -> & Hall).
      repeat split; [done|]. exists ((item_type, location) :: l1), l2.
      split; [done|]. constructor; [by left|done].
    + destruct IH as [-> Hall]. split; [done|].
      constructor; [by left|done].
Qed.

End FirstAvailable.

(** A tile gives the first item, in the order of the dictionary, that is
    located there and not collected yet, and marks it collected; when there
    is none it gives nothing and the state is unchanged.  So two items on
    one tile can only be collected in the order of the dictionary. *)
Theorem collect_item_first_available (tile : string) (gs : GameState) :
  match collect_item tile gs with
  | (Some it, gs') =>
      gs' = mark_collected it gs
      ∧ (it ∉ collected_items gs)
      ∧ ∃ l1 l2,
          collectibles gs = l1 ++ (it, tile) :: l2
          ∧ Forall (λ p, p.2 ≠ tile ∨ p.1 ∈ collected_items gs) l1
  | (None, gs') =>
      gs' = gs
      ∧ Forall (λ p, p.2 ≠ tile ∨ p.1 ∈ collected_items gs) (collectibles gs)
  end.
Proof. apply collect_scan_first. Qed.
